(** * helium-topography: the batch sweep of [batch_processing.py]

    A shallow embedding of the script's functions and the properties of
    its persistence layer, terrain-feature fallback, Monte Carlo
    trilateration loop and distance filter.

    Conventions of the embedding:
    - Python floats are an abstract type [F] with the operations the
      script applies to them (class [Num]); comparisons return [bool], so
      that an IEEE interpretation (where every comparison with NaN is
      [false]) is an instance.  Concrete runs use the instance on [Q].
    - Exceptions are values of [exn]; a computation that can raise
      returns a [result].
    - Stateful code (the database session, the Python objects that are
      mutated in place, standard output) threads a [world]. *)

From Stdlib Require Import QArith Qabs Qround DecimalString.
From stdpp Require Import gmap strings list fin_maps sorting.

Open Scope string_scope.
Open Scope Z_scope.

(** ** Exceptions and results *)

Inductive exn : Set :=
  | KeyError
  | ValueError
  | TypeError
  | AttributeError
  | IndexError
  | ZeroDivisionError
  | NoResultFound
  | OperationalError
  | IntegrityError
  | RasterioError
  | OtherError.

Inductive result (A : Type) : Type :=
  | Ok (a : A)
  | Raise (e : exn).
Arguments Ok {A} a.
Arguments Raise {A} e.

Definition is_ok {A} (r : result A) : bool :=
  match r with Ok _ => true | Raise _ => false end.

(** ** Floats *)

Class Num (F : Type) : Type := {
  lit : Q → F;                 (* a decimal literal of the script *)
  fadd : F → F → F;
  fsub : F → F → F;
  fmul : F → F → F;
  fdiv : F → F → F;
  fneg : F → F;
  fsqrt : F → F;               (* np.sqrt *)
  fle : F → F → bool;          (* a <= b *)
  flt : F → F → bool;          (* a < b *)
  fnan : F;                    (* np.nan *)
  fisnan : F → bool;           (* np.isnan *)
  fmedian : list F → F;        (* np.median *)
}.

(** [a > b] is Python's reflected [b < a]. *)
Definition fgt `{Num F} (a b : F) : bool := flt b a.

(** [x ** 2] *)
Definition fsq `{Num F} (x : F) : F := fmul x x.

(** ** Data model *)

Section DataModel.
Context {F : Type}.

(** A coordinate [(lat, lon)]. *)
Definition coord : Type := F * F.

(** A row of [witness_edges] as [get_witness_edges_for_address] returns
    it: the receipts of one (transmitter, witness) pair averaged, joined
    with the inventory of both ends ([_x]: transmitter, [_y]: witness). *)
Record edge : Type := {
  transmitter_address : string;
  witness_address : string;
  rssi : F;
  snr : F;
  tx_power : F;
  gain_x : F;
  gain_y : F;
  transmitter_coords : coord;
  witness_coords_of : coord;
  distance_m : F;
  bearing : F;
}.

(** Modelled from the spec: [extract_topographic_features] belongs to
    the module [feature_extraction], which is not part of the sources;
    the spec gives its result as the nine topographic descriptors. *)
Record topo_features : Type := {
  ra : F; rq : F; rp : F; rv : F; rz : F; rsk : F; rku : F;
  deepest_barrier : F;
  n_barriers : F;
}.

(** A row of [path_features]: the descriptors and the radio columns. *)
Record path_feature : Type := {
  pf_topo : topo_features;
  pf_tx_power : F;
  pf_gain_beacon : F;
  pf_gain_witness : F;
  pf_rssi : F;
  pf_snr : F;
  pf_distance_m : F;
}.

(** A row of [details_df]; [outliers] is the column added after the
    isolation forest has run. *)
Record detail : Type := {
  d_transmitter_address : string;
  d_witness_address : string;
  d_transmitter_coords : coord;
  d_outliers : Z;
}.

(** A row of the table [gateway_inventory]; the three data columns are
    nullable. *)
Record inventory_row : Type := {
  inv_address : string;
  inv_location : option string;
  inv_gain : option Z;
  inv_elevation : option Z;
  inv_last_block : Z;
}.

(** A row of the frame [gateway_locations], indexed by [gw_address]. *)
Record gateway : Type := {
  gw_address : string;
  gw_location : string;
  gw_gain : Z;
  gw_elevation : Z;
  asserted_location : coord;
  asserted_hex_res8 : string;
}.

(** One entry of the list [results] of [generate_stats]. *)
Record stats_entry : Type := {
  se_address : string;
  se_percent : string;
  se_prediction_error_km : F;
  se_n_outliers : nat;
  se_n_beaconers_heard : nat;
}.

(** A row of [results_df] (the entry and the [block] column), which is
    also a row of the table [topography_results]. *)
Record result_row : Type := {
  address : string;
  percent_predictions_within_5_res8_krings : string;
  prediction_error_km : F;
  n_outliers : nat;
  n_beaconers_heard : nat;
  block : Z;
}.

(** Calls made on the SQLAlchemy session, in the order they are made. *)
Inductive db_call : Type :=
  | CallQueryAddressIn (keys : list string)
  | CallBulkInsert (entries : list result_row)
  | CallFlush
  | CallCommit
  | CallRollback.

(** Modelled from the spec: the declaration of [TopographyResults]
    (models/tables.py) is not part of the sources; the spec gives the
    table [topography_results] with [address] as its unique key, so the
    table is a finite map from address to row and an insert of an address
    already there is an integrity error.

    [committed] is the table as the database has it, [pending] the rows
    inserted by the open transaction of the session; the session reads
    both.  [commit_faults] is the environment: the outcome of the commits
    to come ([None]: the commit succeeds), an exhausted list meaning no
    further fault.

    [heap] holds the Python dict objects, which are passed by reference.
    [rng_calls] counts the calls of [np.random.permutation] made so far.
    [topo_log] lists the edges handed to [map_topo_features]. *)
Record world : Type := {
  heap : gmap positive (gmap string result_row);
  committed : gmap string result_row;
  pending : gmap string result_row;
  commit_faults : list (option exn);
  db_log : list db_call;
  stdout : list string;
  rng_calls : nat;
  topo_log : list edge;
}.

Definition set_heap (h : gmap positive (gmap string result_row)) (w : world) : world :=
  {| heap := h; committed := committed w; pending := pending w;
     commit_faults := commit_faults w; db_log := db_log w; stdout := stdout w;
     rng_calls := rng_calls w; topo_log := topo_log w |}.

Definition set_pending (p : gmap string result_row) (w : world) : world :=
  {| heap := heap w; committed := committed w; pending := p;
     commit_faults := commit_faults w; db_log := db_log w; stdout := stdout w;
     rng_calls := rng_calls w; topo_log := topo_log w |}.

Definition set_committed (c : gmap string result_row) (w : world) : world :=
  {| heap := heap w; committed := c; pending := pending w;
     commit_faults := commit_faults w; db_log := db_log w; stdout := stdout w;
     rng_calls := rng_calls w; topo_log := topo_log w |}.

Definition set_commit_faults (fs : list (option exn)) (w : world) : world :=
  {| heap := heap w; committed := committed w; pending := pending w;
     commit_faults := fs; db_log := db_log w; stdout := stdout w;
     rng_calls := rng_calls w; topo_log := topo_log w |}.

Definition log_call (c : db_call) (w : world) : world :=
  {| heap := heap w; committed := committed w; pending := pending w;
     commit_faults := commit_faults w; db_log := db_log w ++ [c];
     stdout := stdout w; rng_calls := rng_calls w; topo_log := topo_log w |}.

Definition log_stdout (s : string) (w : world) : world :=
  {| heap := heap w; committed := committed w; pending := pending w;
     commit_faults := commit_faults w; db_log := db_log w;
     stdout := stdout w ++ [s]; rng_calls := rng_calls w;
     topo_log := topo_log w |}.

Definition tick_rng (w : world) : world :=
  {| heap := heap w; committed := committed w; pending := pending w;
     commit_faults := commit_faults w; db_log := db_log w; stdout := stdout w;
     rng_calls := S (rng_calls w); topo_log := topo_log w |}.

Definition log_topo (x : edge) (w : world) : world :=
  {| heap := heap w; committed := committed w; pending := pending w;
     commit_faults := commit_faults w; db_log := db_log w; stdout := stdout w;
     rng_calls := rng_calls w; topo_log := topo_log w ++ [x] |}.

(** What a query of the session sees. *)
Definition visible (w : world) : gmap string result_row :=
  pending w ∪ committed w.

(** ** The monad of the stateful code

    A raised exception keeps the state reached so far, as in Python. *)
Definition M (A : Type) : Type := world → result A * world.

Definition ret {A} (a : A) : M A := λ w, (Ok a, w).
Definition raise {A} (e : exn) : M A := λ w, (Raise e, w).
Definition bind {A B} (m : M A) (k : A → M B) : M B :=
  λ w, match m w with
       | (Ok a, w') => k a w'
       | (Raise e, w') => (Raise e, w')
       end.
(** [try: m except: handler] *)
Definition try_except {A} (m : M A) (handler : exn → M A) : M A :=
  λ w, match m w with
       | (Ok a, w') => (Ok a, w')
       | (Raise e, w') => handler e w'
       end.
Definition modify (f : world → world) : M unit := λ w, (Ok tt, f w).
Definition lift {A} (r : result A) : M A := λ w, (r, w).

End DataModel.
Arguments coord F : clear implicits.
Arguments edge F : clear implicits.
Arguments topo_features F : clear implicits.
Arguments path_feature F : clear implicits.
Arguments detail F : clear implicits.
Arguments gateway F : clear implicits.
Arguments stats_entry F : clear implicits.
Arguments result_row F : clear implicits.
Arguments db_call F : clear implicits.
Arguments world F : clear implicits.
Arguments M F A : clear implicits.

Notation "x <- m ;; k" := (bind m (λ x, k))
  (at level 100, m at next level, right associativity).
Notation "m ;;; k" := (bind m (λ _, k))
  (at level 100, right associativity).

(** ** The libraries and models the script calls

    The geodesy functions ([haversine], [inverse_haversine],
    [get_bearing]), the H3 index, numpy's [arange] and random
    permutations, the raster, the two trained models and the receipts
    query are outside the sources; the script is modelled over any
    interpretation of them.  [np_random_permutation c n] is the
    permutation of [range(n)] that the [c]-th call of the process
    returns. *)
Class Ext (F : Type) : Type := {
  haversine : coord F → coord F → F;                 (* kilometers *)
  get_bearing : F → F → F → F → F;
  inverse_haversine : coord F → F → F → coord F;
  h3_to_geo : string → coord F;
  h3_to_parent : string → nat → string;
  geo_to_h3 : F → F → nat → string;
  k_ring : string → nat → list string;
  np_arange : F → F → F → result (list F);
  np_random_permutation : nat → nat → list nat;
  dataset : Type;
  rasterio_open : result dataset;
  rasterio_sample : dataset → F * F → result F;
  level_profile : list F → list F → result (list F);
  extract_topographic_features : list F → list F → result (topo_features F);
  svm_predict : list (path_feature F) → list F;
  iso_forest_predict : list (path_feature F) → list Z;
  get_witness_edges_for_address : string → result (option (list (edge F)));
}.

(** ** Persistence: [upsert_predictions] *)

Section Upsert.
Context {F : Type}.

(** [for each in xs: body(each)] *)
Fixpoint for_each {A} (xs : list A) (body : A → M F unit) : M F unit :=
  match xs with
  | [] => ret tt
  | x :: xs' => body x ;;; for_each xs' body
  end.

(** *** Python dict objects *)

(** [d.keys()] *)
Definition dict_keys (d : positive) : M F (list string) :=
  λ w, match heap w !! d with
       | Some m => (Ok (map_to_list m).*1, w)
       | None => (Raise AttributeError, w)
       end.

(** [d.values()] *)
Definition dict_values (d : positive) : M F (list (result_row F)) :=
  λ w, match heap w !! d with
       | Some m => (Ok (map_to_list m).*2, w)
       | None => (Raise AttributeError, w)
       end.

(** [d.pop(k)]: removes the key from the object itself; [KeyError] when
    the key is not there. *)
Definition dict_pop (d : positive) (k : string) : M F unit :=
  λ w, match heap w !! d with
       | Some m =>
           match m !! k with
           | Some _ => (Ok tt, set_heap (<[d := delete k m]> (heap w)) w)
           | None => (Raise KeyError, w)
           end
       | None => (Raise AttributeError, w)
       end.

(** A new dict object. *)
Definition dict_new (m : gmap string (result_row F)) : M F positive :=
  λ w, let d := fresh (dom (heap w)) in
       (Ok d, set_heap (<[d := m]> (heap w)) w).

(** *** The session *)

(** [session.query(TopographyResults.address)
        .filter(TopographyResults.address.in_(keys)).all()] *)
Definition query_address_in (keys : list string) : M F (list string) :=
  λ w, (Ok (map_to_list (filter (λ kv, kv.1 ∈ keys) (visible w))).*1,
        log_call (CallQueryAddressIn keys) w).

(** One INSERT of the bulk insert. *)
Definition insert_row (r : result_row F) : M F unit :=
  λ w, match visible w !! address r with
       | Some _ => (Raise IntegrityError, w)
       | None => (Ok tt, set_pending (<[address r := r]> (pending w)) w)
       end.

(** [session.bulk_insert_mappings(TopographyResults, entries)] *)
Definition bulk_insert_mappings (entries : list (result_row F)) : M F unit :=
  modify (log_call (CallBulkInsert entries)) ;;;
  for_each entries insert_row.

(** [session.flush()]: the bulk insert has emitted its statements
    already. *)
Definition flush : M F unit := modify (log_call CallFlush).

(** [session.commit()] *)
Definition commit : M F unit :=
  λ w, let w1 := log_call CallCommit w in
       match commit_faults w1 with
       | Some e :: fs => (Raise e, set_commit_faults fs w1)
       | None :: fs =>
           (Ok tt, set_commit_faults fs
                     (set_pending ∅ (set_committed (visible w1) w1)))
       | [] => (Ok tt, set_pending ∅ (set_committed (visible w1) w1))
       end.

(** [session.rollback()] *)
Definition rollback : M F unit :=
  modify (λ w, set_pending ∅ (log_call CallRollback w)).

Definition print (s : string) : M F unit := modify (log_stdout s).

(** *** [upsert_predictions] *)
Definition upsert_predictions (result_rows : positive) : M F unit :=
  (* Find all new rows and build mappings *)
  keys <- dict_keys result_rows ;;
  present <- query_address_in keys ;;
  for_each present (λ each, dict_pop result_rows each) ;;;
  (* Bulk mappings for everything that needs to be inserted *)
  entries_to_put <- dict_values result_rows ;;
  bulk_insert_mappings entries_to_put ;;;
  flush ;;;
  try_except commit
    (λ e, match e with
          | OperationalError =>
              print "Rolling back bulk insert due to operational error" ;;;
              rollback
          | _ => raise e
          end).

End Upsert.

(** ** Terrain features: [map_topo_features] *)

Section Topo.
Context {F : Type} `{Num F} `{Ext F}.

(** The vector the [except] branch returns. *)
Definition nan_features : topo_features F :=
  {| ra := fnan; rq := fnan; rp := fnan; rv := fnan; rz := fnan;
     rsk := fnan; rku := fnan; deepest_barrier := fnan; n_barriers := fnan |}.

(** The first loop: one raster index [(lon, lat)] per distance. *)
Definition index_list (x : edge F) (d_vec : list F) : list (F * F) :=
  map (λ d, let c := inverse_haversine (transmitter_coords x) d (bearing x) in
            (c.2, c.1)) d_vec.

(** [np.zeros_like(d_vec)] *)
Definition zeros_like (d_vec : list F) : list F := map (λ _, lit 0%Q) d_vec.

(** The second loop: [elevation_profile[i] = e] for the [i]-th sample the
    generator yields; a sample that raises ends the loop. *)
Fixpoint sample_loop (ds : dataset) (i : nat) (points : list (F * F))
    (elevation_profile : list F) : result (list F) :=
  match points with
  | [] => Ok elevation_profile
  | pt :: points' =>
      match rasterio_sample ds pt with
      | Ok e => sample_loop ds (S i) points' (<[i := e]> elevation_profile)
      | Raise err => Raise err
      end
  end.

(** The body of the [try]. *)
Definition topo_pipeline (x : edge F) (ds : dataset) : result (topo_features F) :=
  match np_arange (lit 0%Q) (fdiv (distance_m x) (lit 1000%Q)) (lit (3 # 10)%Q) with
  | Raise err => Raise err
  | Ok d_vec =>
      match sample_loop ds 0 (index_list x d_vec) (zeros_like d_vec) with
      | Raise err => Raise err
      | Ok elevation_profile =>
          match level_profile d_vec elevation_profile with
          | Raise err => Raise err
          | Ok levelled => extract_topographic_features d_vec levelled
          end
      end
  end.

Definition map_topo_features (x : edge F) (ds : dataset) : topo_features F :=
  match topo_pipeline x ds with
  | Ok features => features
  | Raise _ =>
      (* return nans, but same structure as a valid output *)
      nan_features
  end.

End Topo.

(** ** Monte Carlo trilateration: [generate_stats] *)

Section Stats.
Context {F : Type} `{Num F} `{Ext F}.

Definition N : nat := 1000.

(** [l[i]] *)
Definition list_index {A} (l : list A) (i : nat) : M F A :=
  match l !! i with
  | Some a => ret a
  | None => raise IndexError
  end.

(** [idx1, idx2, idx3 = np.random.permutation(n)[:3]] *)
Definition permutation3 (n : nat) : M F (nat * nat * nat) :=
  λ w, match take 3 (np_random_permutation (rng_calls w) n) with
       | [idx1; idx2; idx3] => (Ok (idx1, idx2, idx3), tick_rng w)
       | _ => (Raise ValueError, tick_rng w)
       end.

(** The variables the sampling loop assigns: its loop variable [i] and
    the list [predicted_locations]. *)
Record mc_locals : Type := {
  mc_i : Z;
  predicted_locations : list (coord F);
}.

(** [x_prime = (r1 ** 2 - r2 ** 2 + u ** 2) / (2 * u)] *)
Definition x_prime_of (r1 r2 u : F) : F :=
  fdiv (fadd (fsub (fsq r1) (fsq r2)) (fsq u)) (fmul (lit 2%Q) u).

(** One pass through the body of [for i in range(N)], [k] being the
    value the range yields for it. *)
Definition mc_attempt (witness_coords : list (coord F)) (eval_mean : list F)
    (asserted : coord F) (k : nat) (st : mc_locals) : M F mc_locals :=
  let i := Z.of_nat k in
  let predicted := predicted_locations st in
  idx <- permutation3 (length witness_coords) ;;
  let '(idx1, idx2, idx3) := idx in
  c1 <- list_index witness_coords idx1 ;;
  c2 <- list_index witness_coords idx2 ;;
  let u := haversine c1 c2 in
  if fle u (lit (5 # 100)%Q) then
    (* pair of witnesses is in the same hex *)
    ret {| mc_i := i; predicted_locations := predicted |}
  else
    r1 <- list_index eval_mean idx1 ;;
    r2 <- list_index eval_mean idx2 ;;
    if fgt r1 (lit 50%Q) || fgt r2 (lit 50%Q) then
      (* try again: i -= 1 *)
      ret {| mc_i := i - 1; predicted_locations := predicted |}
    else
      let x_prime := x_prime_of r1 r2 u in
      if flt (fsub (fsq r1) (fsq x_prime)) (lit 0%Q) then
        ret {| mc_i := i; predicted_locations := predicted |}
      else
        let y_prime_1 := fsqrt (fsub (fsq r1) (fsq x_prime)) in
        let y_prime_2 := fneg y_prime_1 in
        let phi_1 := get_bearing c1.1 c1.2 (fadd y_prime_1 c1.1) (fadd x_prime c1.2) in
        let phi_2 := get_bearing c1.1 c1.2 (fadd y_prime_2 c1.1) (fadd x_prime c1.2) in
        let pt_1 := inverse_haversine c1 r1 phi_1 in
        let pt_2 := inverse_haversine c1 r1 phi_2 in
        (* choose the point closest to the asserted location *)
        let predicted_location :=
          if flt (haversine asserted pt_1) (haversine asserted pt_2)
          then pt_1 else pt_2 in
        ret {| mc_i := i; predicted_locations := predicted ++ [predicted_location] |}.

(** [for i in range(N): ...] over the values [attempts] that the range
    has still to yield: every pass takes the next one. *)
Fixpoint mc_run (witness_coords : list (coord F)) (eval_mean : list F)
    (asserted : coord F) (attempts : list nat) (st : mc_locals) : M F mc_locals :=
  match attempts with
  | [] => ret st
  | k :: attempts' =>
      st' <- mc_attempt witness_coords eval_mean asserted k st ;;
      mc_run witness_coords eval_mean asserted attempts' st'
  end.

(** The integer nearest to [a / b] for [0 < b], ties to the even one
    ([np.round]). *)
Definition round_half_even (a b : Z) : Z :=
  let q := a / b in
  let r := a mod b in
  if 2 * r <? b then q
  else if b <? 2 * r then q + 1
  else if Z.even q then q else q + 1.

Definition digits (n : Z) : string :=
  NilZero.string_of_uint (N.to_uint (Z.to_N n)).

(** [str] of a float that is [t] tenths: one decimal place. *)
Definition str_tenths (t : Z) : string :=
  digits (t / 10) ++ "." ++ digits (t mod 10).

(** [str(np.round(100 * pts_in_hex / n_points, 1))]: the division of the
    two integers raises on a zero divisor.  The quotient is taken
    exactly, and rounded to tenths once. *)
Definition percent_str (pts_in_hex n_points : nat) : result string :=
  if (n_points =? 0)%nat then Raise ZeroDivisionError
  else Ok (str_tenths
             (round_half_even (1000 * Z.of_nat pts_in_hex) (Z.of_nat n_points))).

(** [gateway_locations.loc[hotspot]].  An address that labels several
    rows selects a frame, not a row: its columns are Series, which the
    geodesy and H3 calls that receive them reject. *)
Definition gateway_loc (gateway_locations : list (gateway F)) (hotspot : string)
    : M F (gateway F) :=
  match filter (λ g, gw_address g = hotspot) gateway_locations with
  | [] => raise KeyError
  | [g] => ret g
  | _ => raise TypeError
  end.

Definition rows_of (details_df : list (detail F)) (hotspot : string) : list (detail F) :=
  filter (λ d, d_witness_address d = hotspot) details_df.

(** The part of the body after the sampling loop: the entry of
    [results] for [hotspot], from its [predicted_locations]. *)
Definition stats_of (details_df : list (detail F)) (g : gateway F)
    (hotspot : string) (predicted : list (coord F)) : stats_entry F :=
  let predicted_lat := map fst predicted in
  let predicted_lon := map snd predicted in
  let monte_carlo_results := zip predicted_lat predicted_lon in
  let rings := k_ring (asserted_hex_res8 g) 5 in
  let n_points := length monte_carlo_results in
  let pts_in_hex :=
    length (filter (λ c : F * F, geo_to_h3 c.1 c.2 8 ∈ rings) monte_carlo_results) in
  let p := match percent_str pts_in_hex n_points with
           | Ok s => s
           | Raise _ => "0"
           end in
  {| se_address := hotspot;
     se_percent := p;
     se_prediction_error_km :=
       haversine (asserted_location g) (fmedian predicted_lat, fmedian predicted_lon);
     se_n_outliers :=
       length (filter (λ d, d_witness_address d = hotspot ∧ d_outliers d < 0) details_df);
     se_n_beaconers_heard := length (rows_of details_df hotspot) |}.

(** [witness_coords] of the body. *)
Definition witness_coords (details_df : list (detail F)) (hotspot : string)
    : list (coord F) :=
  map d_transmitter_coords (rows_of details_df hotspot).

(** The body of the loop over the witnesses; [None] is [continue]. *)
Definition hotspot_stats (details_df : list (detail F))
    (gateway_locations : list (gateway F)) (eval_mean : list F)
    (i : nat) (hotspot : string) : M F (option (stats_entry F)) :=
  let witness_coords := witness_coords details_df hotspot in
  if (length witness_coords <? 3)%nat then ret None
  else
    g <- gateway_loc gateway_locations hotspot ;;
    st <- mc_run witness_coords eval_mean (asserted_location g) (seq 0 N)
            {| mc_i := Z.of_nat i; predicted_locations := [] |} ;;
    ret (Some (stats_of details_df g hotspot (predicted_locations st))).

(** [for i, hotspot in enumerate(...)], [i] counting from [i0]. *)
Fixpoint stats_loop (details_df : list (detail F))
    (gateway_locations : list (gateway F)) (eval_mean : list F)
    (i0 : nat) (hotspots : list string) (results : list (stats_entry F))
    : M F (list (stats_entry F)) :=
  match hotspots with
  | [] => ret results
  | hotspot :: hotspots' =>
      r <- hotspot_stats details_df gateway_locations eval_mean i0 hotspot ;;
      stats_loop details_df gateway_locations eval_mean (S i0) hotspots'
        (match r with Some e => results ++ [e] | None => results end)
  end.

(** [results_df["block"] = current_height] *)
Definition add_block (current_height : Z) (e : stats_entry F) : result_row F :=
  {| address := se_address e;
     percent_predictions_within_5_res8_krings := se_percent e;
     prediction_error_km := se_prediction_error_km e;
     n_outliers := se_n_outliers e;
     n_beaconers_heard := se_n_beaconers_heard e;
     block := current_height |}.

(** [generate_stats]: the witnesses are visited in the order of their
    first row (the order of a Python set is not specified).  An empty
    [results] has no column [address]; [to_dict("index")] wants a unique
    index.  The dict returned is a new object. *)
Definition generate_stats (details_df : list (detail F))
    (gateway_locations : list (gateway F)) (eval_mean : list F)
    (current_height : Z) : M F positive :=
  results <- stats_loop details_df gateway_locations eval_mean 0
               (remove_dups (d_witness_address <$> details_df)) [] ;;
  match results with
  | [] => raise KeyError
  | _ =>
      let results_df := add_block current_height <$> results in
      if decide (NoDup (address <$> results_df)) then
        dict_new (list_to_map ((λ r, (address r, r)) <$> results_df))
      else raise ValueError
  end.

End Stats.

(** ** The gateway inventory *)

(** The order of [order by last_block desc]. *)
Definition newer_first (a b : inventory_row) : Prop :=
  inv_last_block b ≤ inv_last_block a.

Global Instance newer_first_dec : RelDecision newer_first :=
  λ a b, decide (inv_last_block b ≤ inv_last_block a).

Section Inventory.
Context {F : Type} `{Ext F}.

(** [select address, location, gain, elevation from gateway_inventory
     order by last_block desc]: the rows of the table, most recent block
    first.  The column [last_block] itself is not selected; the rows keep
    it here so that the order can be spoken of. *)
Definition select_gateway_inventory (table : list inventory_row) : list inventory_row :=
  merge_sort newer_first table.

(** [.set_index("address").dropna()] and the two derived columns, for
    one row: a row with a null in [location], [gain] or [elevation] is
    dropped. *)
Definition gateway_of_row (r : inventory_row) : option (gateway F) :=
  match inv_location r, inv_gain r, inv_elevation r with
  | Some location, Some gain, Some elevation =>
      Some {| gw_address := inv_address r;
              gw_location := location;
              gw_gain := gain;
              gw_elevation := elevation;
              asserted_location := h3_to_geo location;
              asserted_hex_res8 := h3_to_parent location 8 |}
  | _, _, _ => None
  end.

(** The frame [gateway_locations] that a sweep builds from the table. *)
Definition gateway_locations (table : list inventory_row) : list (gateway F) :=
  omap gateway_of_row (select_gateway_inventory table).

End Inventory.

(** ** The orchestration loop *)

Section Sweep.
Context {F : Type} `{Num F} `{Ext F}.

(** A row of [path_details]. *)
Record path_detail : Type := {
  pd_transmitter_address : string;
  pd_witness_address : string;
  pd_transmitter_coords : coord F;
}.

Definition features_of (features : topo_features F) (x : edge F) : path_feature F :=
  {| pf_topo := features;
     pf_tx_power := tx_power x;
     pf_gain_beacon := gain_x x;
     pf_gain_witness := gain_y x;
     pf_rssi := rssi x;
     pf_snr := snr x;
     pf_distance_m := distance_m x |}.

Definition details_of (x : edge F) : path_detail :=
  {| pd_transmitter_address := transmitter_address x;
     pd_witness_address := witness_address x;
     pd_transmitter_coords := transmitter_coords x |}.

(** The mask
    [(witness_edges["distance_m"] > 50) & (witness_edges["distance_m"] < 50e3)] *)
Definition distance_mask (x : edge F) : bool :=
  fgt (distance_m x) (lit 50%Q) && flt (distance_m x) (lit 50000%Q).

(** [for i, x in witness_edges.iterrows(): ...]; every column the body
    reads is a field of [edge], so its [KeyError] handler has nothing to
    catch. *)
Fixpoint edges_loop (ds : dataset) (witness_edges : list (edge F))
    (path_features : list (path_feature F)) (path_details : list path_detail)
    : M F (list (path_feature F) * list path_detail) :=
  match witness_edges with
  | [] => ret (path_features, path_details)
  | x :: witness_edges' =>
      if fgt (distance_m x) (lit 50000%Q) || flt (distance_m x) (lit 50%Q) then
        edges_loop ds witness_edges' path_features path_details
      else
        modify (log_topo x) ;;;
        let features := map_topo_features x ds in
        if fisnan (ra features) then
          edges_loop ds witness_edges' path_features path_details
        else
          edges_loop ds witness_edges'
            (path_features ++ [features_of features x])
            (path_details ++ [details_of x])
  end.

(** [features_df.drop(["distance_m"], axis=1)], row by row. *)
Definition drop_distance (f : path_feature F) : path_feature F :=
  {| pf_topo := pf_topo f;
     pf_tx_power := pf_tx_power f;
     pf_gain_beacon := pf_gain_beacon f;
     pf_gain_witness := pf_gain_witness f;
     pf_rssi := pf_rssi f;
     pf_snr := pf_snr f;
     pf_distance_m := fnan |}.

(** [details_df["outliers"] = outliers]: the column must have the length
    of the frame. *)
Definition with_outliers (path_details : list path_detail) (outliers : list Z)
    : result (list (detail F)) :=
  if (length path_details =? length outliers)%nat then
    Ok (zip_with (λ d o, {| d_transmitter_address := pd_transmitter_address d;
                            d_witness_address := pd_witness_address d;
                            d_transmitter_coords := pd_transmitter_coords d;
                            d_outliers := o |})
          path_details outliers)
  else Raise ValueError.

(** The body of [for i, address in enumerate(gateway_locations.index)];
    returning is [continue] or the end of the body.  The progress lines,
    which carry elapsed times, are left out. *)
Definition process_node (gateway_locations : list (gateway F))
    (current_height : Z) (address : string) : M F unit :=
  match get_witness_edges_for_address address with
  | Raise NoResultFound | Raise KeyError | Raise ValueError => ret tt
  | Raise e => raise e
  | Ok None => ret tt
  | Ok (Some witness_edges) =>
      let n_edges := length witness_edges in
      if (n_edges <? 2)%nat then ret tt
      else
        let witness_edges := List.filter distance_mask witness_edges in
        ds <- lift rasterio_open ;;
        pp <- edges_loop ds witness_edges [] [] ;;
        let '(path_features, path_details) := pp in
        if (length path_details <? 1)%nat || (length path_features <? 1)%nat then
          (* didn't find any valid edges *)
          ret tt
        else
          let X_eval := map drop_distance path_features in
          let eval_mean := svm_predict X_eval in
          let outliers := iso_forest_predict path_features in
          details_df <- lift (with_outliers path_details outliers) ;;
          r <- try_except
                 (result_rows <- generate_stats details_df gateway_locations
                                   eval_mean current_height ;;
                  ret (Some result_rows))
                 (λ e, match e with
                       | KeyError | AttributeError => ret None
                       | _ => raise e
                       end) ;;
          match r with
          | None => ret tt
          | Some result_rows => upsert_predictions result_rows
          end
  end.

(** One pass of [while True]. *)
Definition sweep (table : list inventory_row) (current_height : Z) : M F unit :=
  let gateway_locations := gateway_locations table in
  for_each (map gw_address gateway_locations)
    (process_node gateway_locations current_height).

End Sweep.

(** ** An interpretation to run the script on

    Floats as rationals with a NaN ([None]): arithmetic is exact, every
    comparison with NaN is false, and a division by zero gives NaN (no
    run below divides by zero). *)

Definition QF : Type := option Q.

Definition qf_op2 (f : Q → Q → Q) (a b : QF) : QF :=
  match a, b with
  | Some x, Some y => Some (Qred (f x y))
  | _, _ => None
  end.

Definition qf_div (a b : QF) : QF :=
  match a, b with
  | Some x, Some y => if Qeq_bool y 0 then None else Some (Qred (x / y))
  | _, _ => None
  end.

(** The square root, to six decimal places, rounded down. *)
Definition qf_sqrt (a : QF) : QF :=
  match a with
  | Some x =>
      if Qle_bool 0 x then
        Some (Qred (Z.sqrt (Qnum x * Z.pos (Qden x) * 1000000000000)
                    # (Qden x * 1000000)))
      else None
  | None => None
  end.

Definition qf_le (a b : QF) : bool :=
  match a, b with
  | Some x, Some y => Qle_bool x y
  | _, _ => false
  end.

Definition qf_lt (a b : QF) : bool :=
  match a, b with
  | Some x, Some y => negb (Qle_bool y x)
  | _, _ => false
  end.

Definition qle_rel (x y : Q) : Prop := Qle_bool x y = true.

Global Instance qle_rel_dec : RelDecision qle_rel :=
  λ x y, decide (Qle_bool x y = true).

(** The median of a list without NaN; NaN for an empty list. *)
Definition q_median (l : list Q) : QF :=
  let sorted := merge_sort qle_rel l in
  let n := length sorted in
  if Nat.even n then
    match sorted !! (n / 2 - 1)%nat, sorted !! (n / 2)%nat with
    | Some x, Some y => Some (Qred ((x + y) / 2))
    | _, _ => None
    end
  else sorted !! (n / 2)%nat.

Definition qf_median (l : list QF) : QF :=
  match mapM id l with
  | Some qs => q_median qs
  | None => None
  end.

Global Instance QF_num : Num QF := {|
  lit := λ q, Some q;
  fadd := qf_op2 Qplus;
  fsub := qf_op2 Qminus;
  fmul := qf_op2 Qmult;
  fdiv := qf_div;
  fneg := λ a, match a with Some x => Some (- x)%Q | None => None end;
  fsqrt := qf_sqrt;
  fle := qf_le;
  flt := qf_lt;
  fnan := None;
  fisnan := λ a, match a with Some _ => false | None => true end;
  fmedian := qf_median;
|}.

(** A small world for the libraries: distances are taxicab distances at
    111 km per degree, a projection moves north or south along the
    meridian, every hex is its own parent and its own ring, and the
    [c]-th random permutation of [range(n)] is [range(n)] rotated by [c].
    The raster covers latitudes up to 80 degrees and is flat; the
    receipts query answers from the list [receipts]. *)
Definition qf_abs (a : QF) : QF :=
  match a with Some x => Some (Qabs x) | None => None end.

Definition flat_haversine (a b : coord QF) : QF :=
  fmul (Some 111%Q) (fadd (qf_abs (fsub a.1 b.1)) (qf_abs (fsub a.2 b.2))).

Definition flat_bearing (lat1 lon1 lat2 lon2 : QF) : QF :=
  if qf_le lat1 lat2 then Some 0%Q else Some 180%Q.

Definition flat_inverse_haversine (c : coord QF) (d phi : QF) : coord QF :=
  if qf_le phi (Some 90%Q)
  then (fadd c.1 (fdiv d (Some 111%Q)), c.2)
  else (fsub c.1 (fdiv d (Some 111%Q)), c.2).

Definition flat_arange (start stop step : QF) : result (list QF) :=
  match start, stop, step with
  | Some a, Some b, Some s =>
      if Qle_bool s 0 then Raise ValueError
      else Ok ((λ i : nat, Some (Qred (a + inject_Z (Z.of_nat i) * s)))
                <$> seq 0 (Z.to_nat (Qceiling ((b - a) / s))))
  | _, _, _ => Raise ValueError
  end.

Definition flat_raster (pt : QF * QF) : result QF :=
  if qf_le (qf_abs pt.2) (Some 80%Q) then Ok (Some 100%Q) else Raise RasterioError.

Definition flat_features (d_vec levelled : list QF) : result (topo_features QF) :=
  match levelled with
  | [] => Raise ValueError
  | _ => Ok {| ra := Some 1%Q; rq := Some 1%Q; rp := Some 2%Q; rv := Some 2%Q;
               rz := Some 4%Q; rsk := Some 0%Q; rku := Some 3%Q;
               deepest_barrier := Some 0%Q; n_barriers := Some 0%Q |}
  end.

Definition flat_world (receipts : list (edge QF)) : Ext QF := {|
  haversine := flat_haversine;
  get_bearing := flat_bearing;
  inverse_haversine := flat_inverse_haversine;
  h3_to_geo := λ _, (Some 0%Q, Some 0%Q);
  h3_to_parent := λ h _, h;
  geo_to_h3 := λ lat lon _, if qf_le (qf_abs lat) (Some (1 # 10)%Q) then "cell" else "far";
  k_ring := λ h _, [h];
  np_arange := flat_arange;
  np_random_permutation := λ c n, rotate c (seq 0 n);
  dataset := unit;
  rasterio_open := Ok tt;
  rasterio_sample := λ _, flat_raster;
  level_profile := λ _ elevation_profile, Ok elevation_profile;
  extract_topographic_features := flat_features;
  svm_predict := λ X, (λ _, Some 1%Q) <$> X;
  iso_forest_predict := λ X, (λ _, 1) <$> X;
  get_witness_edges_for_address := λ a,
    Ok (Some (List.filter (λ x, bool_decide (witness_address x = a)) receipts));
|}.

(** An empty session. *)
Definition world0 {F} (faults : list (option exn)) : world F :=
  {| heap := ∅; committed := ∅; pending := ∅; commit_faults := faults;
     db_log := []; stdout := []; rng_calls := 0; topo_log := [] |}.

(** ** Vocabulary of the statements *)

Section Vocabulary.
Context {F : Type}.

(** A mapping from witness address to result row, as [generate_stats]
    builds it: every row sits under its own address. *)
Definition keyed_by_address (m : gmap string (result_row F)) : Prop :=
  ∀ k r, m !! k = Some r → address r = k.

(** What the next [session.commit()] will do. *)
Definition next_commit (w : world F) : option exn :=
  match commit_faults w with
  | fault :: _ => fault
  | [] => None
  end.

(** The dict after the keys [ks] have been popped one by one. *)
Definition popped (m : gmap string (result_row F)) (ks : list string)
    : gmap string (result_row F) :=
  foldl (λ m k, delete k m) m ks.

(** The open transaction after the rows [rs] have been inserted. *)
Definition inserted (p : gmap string (result_row F)) (rs : list (result_row F))
    : gmap string (result_row F) :=
  foldl (λ p r, <[address r := r]> p) p rs.

(** What [upsert_predictions] comes to, for the dict object [d] holding
    [m]: the addresses the session sees are dropped from the object, the
    rest is inserted, and the commit decides what becomes of it. *)
Definition upsert_outcome (d : positive) (m : gmap string (result_row F))
    (w : world F) : result unit * world F :=
  let m' := m ∖ visible w in
  let calls := (db_log w ++ [CallQueryAddressIn (map_to_list m).*1;
                             CallBulkInsert (map_to_list m').*2;
                             CallFlush; CallCommit])%list in
  let after c p calls out :=
    {| heap := <[d := m']> (heap w); committed := c; pending := p;
       commit_faults := tail (commit_faults w); db_log := calls;
       stdout := out; rng_calls := rng_calls w; topo_log := topo_log w |} in
  match next_commit w with
  | None => (Ok tt, after ((m' ∪ pending w) ∪ committed w) ∅ calls (stdout w))
  | Some OperationalError =>
      (Ok tt, after (committed w) ∅ (calls ++ [CallRollback])%list
                (stdout w ++ ["Rolling back bulk insert due to operational error"])%list)
  | Some e => (Raise e, after (committed w) (m' ∪ pending w) calls (stdout w))
  end.

End Vocabulary.

Section DrawVocabulary.
Context {F : Type} `{Num F} `{Ext F}.

(** The draw that the next pass of the sampling loop makes in [w]: the
    first two indices of the permutation and the coordinates they pick. *)
Definition next_draw (witness_coords : list (coord F)) (w : world F)
    : option (nat * nat * coord F * coord F) :=
  match take 3 (np_random_permutation (rng_calls w) (length witness_coords)) with
  | [idx1; idx2; idx3] =>
      match witness_coords !! idx1, witness_coords !! idx2 with
      | Some c1, Some c2 => Some (idx1, idx2, c1, c2)
      | _, _ => None
      end
  | _ => None
  end.

(** [r1 ** 2 - x_prime ** 2] *)
Definition radicand (r1 r2 u : F) : F :=
  fsub (fsq r1) (fsq (x_prime_of r1 r2 u)).

(** The locals after a pass that [continue]s at the value [k] of the
    range. *)
Definition discarded (k : nat) (st : @mc_locals F) : @mc_locals F :=
  {| mc_i := Z.of_nat k; predicted_locations := predicted_locations st |}.

(** What a retry that does not use up the value [k] of the range would be:
    after the discarded draw the loop stands where it stood, with the same
    values left, and draws again. *)
Definition retried_without_consuming (witness_coords : list (coord F))
    (eval_mean : list F) (asserted : coord F) (k : nat) (ks : list nat)
    (st : @mc_locals F) (w : world F) : Prop :=
  mc_run witness_coords eval_mean asserted (k :: ks) st w
  = mc_run witness_coords eval_mean asserted (k :: ks) st (tick_rng w).

End DrawVocabulary.

Section StatsVocabulary.
Context {F : Type} `{Num F} `{Ext F}.

(** The witness has the three rows that the body of [generate_stats]
    asks for. *)
Definition qualifies (details_df : list (detail F)) (hotspot : string) : Prop :=
  (3 ≤ length (rows_of details_df hotspot))%nat.

Global Instance qualifies_dec (details_df : list (detail F)) (hotspot : string)
    : Decision (qualifies details_df hotspot) :=
  decide (3 ≤ length (rows_of details_df hotspot))%nat.

(** [np.random.permutation(n)] returns a permutation of [range(n)]. *)
Definition permutations_ok : Prop :=
  ∀ c n, np_random_permutation c n ≡ₚ seq 0 n.

(** Every witness that qualifies labels one row of [gateway_locations]. *)
Definition located (gateway_locations : list (gateway F))
    (details_df : list (detail F)) : Prop :=
  ∀ hotspot, hotspot ∈ d_witness_address <$> details_df →
    qualifies details_df hotspot →
    ∃ g, filter (λ g, gw_address g = hotspot) gateway_locations = [g].

(** The entry comes from a run of the sampling loop for its witness. *)
Definition emitted (details_df : list (detail F))
    (gateway_locations : list (gateway F)) (eval_mean : list F)
    (e : stats_entry F) (predicted : list (coord F)) : Prop :=
  ∃ g i st w1 w2,
    g ∈ gateway_locations
    ∧ mc_run (witness_coords details_df (se_address e)) eval_mean
        (asserted_location g) (seq 0 N)
        {| mc_i := Z.of_nat i; predicted_locations := [] |} w1 = (Ok st, w2)
    ∧ predicted = predicted_locations st
    ∧ e = stats_of details_df g (se_address e) predicted.

(** [s] is the text of the number [tenths / 10]. *)
Definition is_percent_text (s : string) (tenths : Z) : Prop :=
  (s = "0" ∧ tenths = 0) ∨ s = str_tenths tenths.

(** The mapping [generate_stats] makes of its entries. *)
Definition rows_of_results (current_height : Z) (results : list (stats_entry F))
    : gmap string (result_row F) :=
  list_to_map ((λ r, (address r, r)) <$> (add_block current_height <$> results)).

End StatsVocabulary.

(** ** Sample data *)

(** The small world with no receipts. *)
Definition sample_world : Ext QF := flat_world [].

Definition origin : coord QF := (Some 0%Q, Some 0%Q).

(** Two transmitters in one place and a third about a kilometer north. *)
Definition near_coords : list (coord QF) :=
  [origin; origin; (Some (1 # 100)%Q, Some 0%Q)].

(** Three transmitters a degree apart. *)
Definition far_coords : list (coord QF) :=
  [origin; (Some 1%Q, Some 0%Q); (Some 2%Q, Some 0%Q)].

Definition unit_radii : list QF := [Some 1%Q; Some 1%Q; Some 1%Q].
Definition long_radii : list QF := [Some 60%Q; Some 1%Q; Some 1%Q].

Definition no_locations : @mc_locals QF :=
  {| mc_i := 0; predicted_locations := [] |}.

(** A witness [a] heard from three transmitters, two of them in one
    place, and a witness [b] heard from two. *)
Definition mk_detail (t w : string) (c : coord QF) (o : Z) : detail QF :=
  {| d_transmitter_address := t; d_witness_address := w;
     d_transmitter_coords := c; d_outliers := o |}.

Definition sample_details : list (detail QF) :=
  [mk_detail "t1" "a" origin 1; mk_detail "t2" "a" origin (-1);
   mk_detail "t3" "a" (Some (1 # 100)%Q, Some 0%Q) 1;
   mk_detail "t1" "b" origin 1; mk_detail "t2" "b" origin 1].

Definition mk_gateway (a : string) : gateway QF :=
  {| gw_address := a; gw_location := "cell"; gw_gain := 12; gw_elevation := 3;
     asserted_location := origin; asserted_hex_res8 := "cell" |}.

Definition sample_gateways : list (gateway QF) := [mk_gateway "a"; mk_gateway "b"].

Definition sample_radii : list QF := replicate 5 (Some 1%Q).

(** Result rows for [a] and [b], and a session whose table has a row for
    [a] already; the object 1 holds the mapping. *)
Definition sample_row (a : string) (height : Z) : result_row QF :=
  {| address := a; percent_predictions_within_5_res8_krings := "100.0";
     prediction_error_km := Some (89 # 200)%Q; n_outliers := 1;
     n_beaconers_heard := 3; block := height |}.

Definition sample_rows : gmap string (result_row QF) :=
  {[ "a" := sample_row "a" 7; "b" := sample_row "b" 7 ]}.

Definition stored_world (faults : list (option exn)) : world QF :=
  {| heap := {[ 1%positive := sample_rows ]};
     committed := {[ "a" := sample_row "a" 5 ]};
     pending := ∅; commit_faults := faults;
     db_log := []; stdout := []; rng_calls := 0; topo_log := [] |}.

(** ** Vocabulary of the properties of the whole script *)

Open Scope list_scope.

Section TopoVocabulary.
Context {F : Type} `{Num F} `{Ext F}.

(** The raster gives the elevations [elevations] at the points [points],
    one after the other. *)
Definition sampled (ds : dataset) (points : list (F * F)) (elevations : list F)
    : Prop :=
  Forall2 (λ pt e, rasterio_sample ds pt = Ok e) points elevations.

End TopoVocabulary.

Section FrameVocabulary.
Context {F : Type}.

(** The computation [m] leaves the part [f] of the world as it finds it,
    whether it returns or raises. *)
Definition keeps {A B} (f : world F → B) (m : M F A) : Prop :=
  ∀ w, f (m w).2 = f w.

(** The part [f] of the world does not depend on the random source. *)
Definition ignores_rng {B} (f : world F → B) : Prop :=
  ∀ w, f (tick_rng w) = f w.

(** The part [f] of the world does not depend on the Python objects. *)
Definition ignores_heap {B} (f : world F → B) : Prop :=
  ∀ h w, f (set_heap h w) = f w.

(** The part [f] of the world does not depend on the session or on
    standard output. *)
Definition ignores_session {B} (f : world F → B) : Prop :=
  (∀ c w, f (log_call c w) = f w)
  ∧ (∀ p w, f (set_pending p w) = f w)
  ∧ (∀ c w, f (set_committed c w) = f w)
  ∧ (∀ fs w, f (set_commit_faults fs w) = f w)
  ∧ (∀ s w, f (log_stdout s w) = f w).

(** The session and the output, as a whole. *)
Definition session_of (w : world F)
    : gmap string (result_row F) * gmap string (result_row F)
      * list (option exn) * list (db_call F) * list string :=
  (committed w, pending w, commit_faults w, db_log w, stdout w).

(** The world after the edges [xs] have been handed to
    [map_topo_features]. *)
Definition with_topo_log (xs : list (edge F)) (w : world F) : world F :=
  {| heap := heap w; committed := committed w; pending := pending w;
     commit_faults := commit_faults w; db_log := db_log w; stdout := stdout w;
     rng_calls := rng_calls w; topo_log := topo_log w ++ xs |}.

End FrameVocabulary.

Section LoopVocabulary.
Context {F : Type} `{Num F} `{Ext F}.

(** The guard at the head of the loop over the edges. *)
Definition out_of_band (x : edge F) : bool :=
  fgt (distance_m x) (lit 50000%Q) || flt (distance_m x) (lit 50%Q).

(** The edge passes the guard and its descriptors are not NaN. *)
Definition usable (ds : dataset) (x : edge F) : bool :=
  negb (out_of_band x) && negb (fisnan (ra (map_topo_features x ds))).

(** [a < b] and [b < a] never hold together. *)
Definition lt_asymmetric : Prop :=
  ∀ a b : F, flt a b = true → flt b a = false.

End LoopVocabulary.

Section NodeVocabulary.
Context {F : Type} `{Num F} `{Ext F}.

(** The edges of a node that the loop hands to [map_topo_features]. *)
Definition node_extracted (witness_edges : list (edge F)) : list (edge F) :=
  List.filter (λ x, negb (out_of_band x)) (List.filter distance_mask witness_edges).

(** The edges of a node whose features are kept. *)
Definition node_usable (ds : dataset) (witness_edges : list (edge F))
    : list (edge F) :=
  List.filter (usable ds) (List.filter distance_mask witness_edges).

End NodeVocabulary.

Section TableVocabulary.
Context {F : Type}.

(** From [w] to [w'] the table [topography_results] has only grown: the
    rows it had are there unchanged, and every other row sits under its
    own address and carries the height [current_height]. *)
Definition table_grown (current_height : Z) (w w' : world F) : Prop :=
  committed w ⊆ committed w'
  ∧ ∀ a r, committed w' !! a = Some r →
      committed w !! a = Some r ∨ (address r = a ∧ block r = current_height).

End TableVocabulary.

Section CandidateVocabulary.
Context {F : Type} `{Num F} `{Ext F}.

(** The two intersection points of the circles around the first
    coordinate [c1] of a draw, as the body of the sampling loop computes
    them from the radii and the distance [u]. *)
Definition candidates (c1 : coord F) (r1 r2 u : F) : coord F * coord F :=
  let x_prime := x_prime_of r1 r2 u in
  let y_prime_1 := fsqrt (fsub (fsq r1) (fsq x_prime)) in
  let y_prime_2 := fneg y_prime_1 in
  let phi_1 := get_bearing c1.1 c1.2 (fadd y_prime_1 c1.1) (fadd x_prime c1.2) in
  let phi_2 := get_bearing c1.1 c1.2 (fadd y_prime_2 c1.1) (fadd x_prime c1.2) in
  (inverse_haversine c1 r1 phi_1, inverse_haversine c1 r1 phi_2).

End CandidateVocabulary.

(** The row of the inventory has no null in the columns that [dropna]
    looks at. *)
Definition complete (r : inventory_row) : Prop :=
  is_Some (inv_location r) ∧ is_Some (inv_gain r) ∧ is_Some (inv_elevation r).

Global Instance complete_dec r : Decision (complete r) :=
  and_dec _ (and_dec _ _).

Section PipelineVocabulary.
Context {F : Type} `{Num F} `{Ext F}.

(** The two trained models answer with one value per row. *)
Definition models_ok : Prop :=
  (∀ X, length (svm_predict X) = length X)
  ∧ (∀ X, length (iso_forest_predict X) = length X).

End PipelineVocabulary.

(** ** Sample nodes *)

(** An edge heard by [w] from a transmitter at latitude [lat] on the
    meridian, [dist] meters away to the north. *)
Definition mk_edge (t w : string) (lat dist : Q) : edge QF :=
  {| transmitter_address := t; witness_address := w;
     rssi := Some (- 100)%Q; snr := Some 5%Q; tx_power := Some 27%Q;
     gain_x := Some 12%Q; gain_y := Some 12%Q;
     transmitter_coords := (Some lat, Some 0%Q);
     witness_coords_of := (Some (lat + dist / 111000)%Q, Some 0%Q);
     distance_m := Some dist; bearing := Some 0%Q |}.

(** The node [a] with edges of 10, 60, 25000 and 60000 meters. *)
Definition band_edges : list (edge QF) :=
  [mk_edge "t1" "a" 0 10; mk_edge "t2" "a" 0 60;
   mk_edge "t3" "a" 0 25000; mk_edge "t4" "a" 0 60000].

Definition band_world : Ext QF := flat_world band_edges.

(** The node [a] with three edges in the band, from transmitters about
    a kilometer apart. *)
Definition three_edges : list (edge QF) :=
  [mk_edge "t1" "a" 0 60; mk_edge "t2" "a" (1 # 100) 1000;
   mk_edge "t3" "a" (2 # 100) 2000].

Definition three_world : Ext QF := flat_world three_edges.

(** The world of [band_edges] with a raster that cannot be opened. *)
Definition closed_world : Ext QF := {|
  haversine := flat_haversine;
  get_bearing := flat_bearing;
  inverse_haversine := flat_inverse_haversine;
  h3_to_geo := λ _, (Some 0%Q, Some 0%Q);
  h3_to_parent := λ h _, h;
  geo_to_h3 := λ lat lon _, if qf_le (qf_abs lat) (Some (1 # 10)%Q) then "cell" else "far";
  k_ring := λ h _, [h];
  np_arange := flat_arange;
  np_random_permutation := λ c n, rotate c (seq 0 n);
  dataset := unit;
  rasterio_open := Raise RasterioError;
  rasterio_sample := λ _, flat_raster;
  level_profile := λ _ elevation_profile, Ok elevation_profile;
  extract_topographic_features := flat_features;
  svm_predict := λ X, (λ _, Some 1%Q) <$> X;
  iso_forest_predict := λ X, (λ _, 1) <$> X;
  get_witness_edges_for_address := λ a,
    Ok (Some (List.filter (λ x, bool_decide (witness_address x = a)) band_edges));
|}.

(** An inventory with the gateways [a] and [b], [a] seen last. *)
Definition sample_table : list inventory_row :=
  [{| inv_address := "b"; inv_location := Some "cell"; inv_gain := Some 12;
      inv_elevation := Some 3; inv_last_block := 8 |};
   {| inv_address := "a"; inv_location := Some "cell"; inv_gain := Some 12;
      inv_elevation := Some 3; inv_last_block := 9 |}].

(** An edge that starts just south of the 80th parallel, where the
    sample raster ends, and one on the equator. *)
Definition polar_edge : edge QF := mk_edge "t1" "a" (79999 # 1000) 1000.
Definition equator_edge : edge QF := mk_edge "t1" "a" 0 1000.

(** Two rows for the witness [b]. *)
Definition few_details : list (detail QF) :=
  [mk_detail "t1" "b" origin 1; mk_detail "t2" "b" origin 1].

(** * Properties *)

Open Scope list_scope.

(** Unfolds the updates of the fields of a [world]. *)
Ltac world_simpl :=
  cbv [visible set_heap set_pending set_committed set_commit_faults
       log_call log_stdout tick_rng log_topo
       heap committed pending commit_faults db_log stdout rng_calls topo_log]
    in *.

Section UpsertFacts.
Context {F : Type}.
Implicit Types (w : world F) (m : gmap string (result_row F)) (d : positive).

Lemma keyed_difference m (t : gmap string (result_row F)) :
  keyed_by_address m → keyed_by_address (m ∖ t).
Proof.
  intros Hk k r Hr. rewrite lookup_difference in Hr.
  destruct (t !! k); [done|]. by apply Hk.
Qed.

Lemma set_heap_id w m d :
  heap w !! d = Some m → set_heap (<[d := m]> (heap w)) w = w.
Proof.
  intros Hd. destruct w; unfold set_heap; simpl in *.
  f_equal. by apply insert_id.
Qed.

Lemma lookup_popped m ks k :
  popped m ks !! k = if decide (k ∈ ks) then None else m !! k.
Proof.
  unfold popped. revert m. induction ks as [|a ks IH]; intros m.
  - rewrite decide_False by apply not_elem_of_nil. done.
  - change (foldl (λ m k, delete k m) m (a :: ks))
      with (foldl (λ m k, delete k m) (delete a m) ks).
    rewrite IH. destruct (decide (k = a)) as [->|Hne].
    + rewrite lookup_delete_eq, (decide_True _ _ (list_elem_of_here _ _)).
      by case_decide.
    + rewrite lookup_delete_ne by done.
      destruct (decide (k ∈ ks)) as [Hin|Hin].
      * by rewrite decide_True by by right.
      * rewrite decide_False; [done|]. intros [?|?]%elem_of_cons; done.
Qed.

Lemma for_each_pop d ks : ∀ w m,
  heap w !! d = Some m →
  (∀ a, a ∈ ks → is_Some (m !! a)) →
  NoDup ks →
  for_each ks (dict_pop d) w
  = (Ok tt, set_heap (<[d := popped m ks]> (heap w)) w).
Proof.
  induction ks as [|a ks IH]; intros w m Hd Hin Hnd; simpl.
  - unfold ret. by rewrite set_heap_id.
  - unfold bind at 1, dict_pop at 1. rewrite Hd.
    assert (is_Some (m !! a)) as [r Hr] by (apply Hin; apply list_elem_of_here). rewrite Hr.
    apply NoDup_cons in Hnd as [Hna Hnd].
    rewrite (IH _ (delete a m)); simpl.
    + unfold set_heap; simpl. by rewrite insert_insert_eq.
    + by rewrite lookup_insert_eq.
    + intros a' Ha'. rewrite lookup_delete_ne by set_solver.
      apply Hin. set_solver.
    + done.
Qed.

Lemma inserted_union p (rs : list (result_row F)) :
  NoDup (address <$> rs) →
  inserted p rs = list_to_map ((λ r, (address r, r)) <$> rs) ∪ p.
Proof.
  unfold inserted. revert p. induction rs as [|r rs IH]; intros p Hnd.
  - simpl. by rewrite (left_id_L ∅ (∪)).
  - rewrite fmap_cons in Hnd. apply NoDup_cons in Hnd as [Hnr Hnd].
    rewrite fmap_cons, list_to_map_cons; simpl. rewrite IH by done.
    rewrite <- insert_union_l. symmetry. apply insert_union_r.
    apply not_elem_of_list_to_map_1.
    rewrite <- list_fmap_compose. exact Hnr.
Qed.

Lemma for_each_insert (rs : list (result_row F)) : ∀ w,
  NoDup (address <$> rs) →
  (∀ r, r ∈ rs → visible w !! address r = None) →
  for_each rs insert_row w = (Ok tt, set_pending (inserted (pending w) rs) w).
Proof.
  induction rs as [|r rs IH]; intros w Hnd Hfree.
  - simpl. unfold ret. by destruct w.
  - rewrite fmap_cons in Hnd. apply NoDup_cons in Hnd as [Hnr Hnd]. simpl.
    unfold bind at 1, insert_row at 1.
    rewrite (Hfree r) by apply list_elem_of_here.
    rewrite IH; [done | done |].
    intros r' Hr'. unfold visible; simpl.
    rewrite <- insert_union_l, lookup_insert_ne.
    + apply Hfree. by right.
    + intros Heq. apply Hnr. rewrite Heq. by apply list_elem_of_fmap_2.
Qed.

Lemma keyed_entries m :
  keyed_by_address m →
  (λ r : result_row F, (address r, r)) <$> (map_to_list m).*2 = map_to_list m.
Proof.
  intros Hk. rewrite <- list_fmap_compose.
  rewrite <- (list_fmap_id (map_to_list m)) at 2.
  apply list_fmap_ext. intros i [k r] Hi; simpl.
  f_equal. apply Hk. apply elem_of_map_to_list.
  by eapply list_elem_of_lookup_2.
Qed.

Lemma keyed_entries_NoDup m :
  keyed_by_address m → NoDup (address <$> (map_to_list m).*2).
Proof.
  intros Hk.
  assert (address <$> (map_to_list m).*2 = (map_to_list m).*1) as ->.
  { rewrite <- (keyed_entries m Hk) at 2.
    rewrite <- !list_fmap_compose. done. }
  apply NoDup_fst_map_to_list.
Qed.

(** The addresses the query returns are the keys of the dict that the
    session sees; popping them leaves the difference. *)
Lemma popped_present m (t : gmap string (result_row F)) :
  popped m (map_to_list (filter (λ kv, kv.1 ∈ (map_to_list m).*1) t)).*1
  = m ∖ t.
Proof.
  apply map_eq; intros k. rewrite lookup_popped, lookup_difference.
  case_decide as Hin.
  - apply list_elem_of_fmap in Hin as [[k' r] [-> Hin]]; simpl.
    apply elem_of_map_to_list, map_lookup_filter_Some in Hin as [Ht _].
    by rewrite Ht.
  - destruct (t !! k) as [r|] eqn:Ht; [|done].
    destruct (m !! k) as [r'|] eqn:Hm; [|done].
    exfalso. apply Hin.
    apply (list_elem_of_fmap_2 fst _ (k, r)).
    apply elem_of_map_to_list, map_lookup_filter_Some. split; [done|]; simpl.
    apply (list_elem_of_fmap_2 fst _ (k, r')). by apply elem_of_map_to_list.
Qed.

Lemma present_in_dict m (t : gmap string (result_row F)) a :
  a ∈ (map_to_list (filter (λ kv, kv.1 ∈ (map_to_list m).*1) t)).*1 →
  is_Some (m !! a).
Proof.
  intros Hin.
  apply list_elem_of_fmap in Hin as [[k r] [-> Hin]]; simpl.
  apply elem_of_map_to_list, map_lookup_filter_Some in Hin as [_ Hk]; simpl in Hk.
  apply list_elem_of_fmap in Hk as [[k' r'] [-> Hk]]; simpl.
  apply elem_of_map_to_list in Hk. by exists r'.
Qed.

(** [upsert_predictions] run on a dict object that holds a mapping keyed
    by address. *)
Lemma upsert_predictions_run d m w :
  heap w !! d = Some m →
  keyed_by_address m →
  upsert_predictions d w = upsert_outcome d m w.
Proof.
  intros Hd Hk.
  assert (keyed_by_address (m ∖ visible w)) as Hk' by by apply keyed_difference.
  unfold upsert_predictions, upsert_outcome.
  unfold bind at 1, dict_keys. rewrite Hd.
  unfold bind at 1, query_address_in.
  unfold bind at 1.
  rewrite (for_each_pop d _ _ m);
    [| done | apply present_in_dict | apply NoDup_fst_map_to_list].
  rewrite popped_present.
  unfold bind at 1, dict_values.
  replace (heap (set_heap (<[d:=m ∖ visible w]> (heap w))
                   (log_call (CallQueryAddressIn (map_to_list m).*1) w)) !! d)
    with (Some (m ∖ visible w)) by (symmetry; apply lookup_insert_eq).
  unfold bind at 1, bulk_insert_mappings. unfold bind at 1, modify at 1.
  rewrite for_each_insert.
  2: by apply keyed_entries_NoDup.
  2: { intros r Hr. apply list_elem_of_fmap in Hr as [[k r'] [-> Hr]].
       apply elem_of_map_to_list in Hr. cbn [snd]. rewrite (Hk' _ _ Hr).
       rewrite lookup_difference in Hr.
       change (visible w !! k = None).
       by destruct (visible w !! k). }
  rewrite inserted_union by by apply keyed_entries_NoDup.
  rewrite keyed_entries, list_to_map_to_list by done.
  unfold bind at 1, flush, modify at 1.
  unfold try_except, commit, next_commit.
  destruct w as [h c p cf lg out rng tl]. world_simpl.
  rewrite <- !app_assoc. cbn [app tail].
  destruct cf as [|[e|] fs]; cbn [tail]; [reflexivity | | reflexivity].
  destruct e; try reflexivity.
  unfold bind, print, rollback, modify. world_simpl.
  rewrite <- !app_assoc. reflexivity.
Qed.

End UpsertFacts.

Section UpsertClaims.
Context {F : Type}.
Implicit Types (w : world F) (m : gmap string (result_row F)) (d : positive).

Lemma difference_union_self m (t : gmap string (result_row F)) :
  (m ∖ t) ∖ ((m ∖ t) ∪ t) = ∅ ∧ m ∖ ((m ∖ t) ∪ t) = ∅.
Proof.
  split; apply map_eq; intros k;
    rewrite !lookup_difference, lookup_union, lookup_difference, lookup_empty;
    destruct (t !! k), (m !! k); done.
Qed.

(** C3. [upsert_predictions] only inserts, and a second call inserts
    nothing.  For a mapping keyed by address held by the object [d], and
    a commit that goes through: the call drops from the mapping the
    addresses the table already has; no row of the table changes; the one
    bulk insert carries exactly the rows that remain; the table becomes the
    old one with these rows added.  A second call right after, on the same
    object or on another object holding the original mapping, bulk-inserts
    the empty list and leaves the table as the first call left it,
    whatever its own commit does. *)
Theorem upsert_predictions_insert_only_idempotent d m w :
  heap w !! d = Some m →
  keyed_by_address m →
  next_commit w = None →
  ∃ w1,
    upsert_predictions d w = (Ok tt, w1)
    ∧ heap w1 !! d = Some (m ∖ visible w)
    ∧ (∀ a r, visible w !! a = Some r → committed w1 !! a = Some r)
    ∧ db_log w1 = (db_log w ++ [CallQueryAddressIn (map_to_list m).*1;
                                CallBulkInsert (map_to_list (m ∖ visible w)).*2;
                                CallFlush; CallCommit])%list
    ∧ committed w1 = (m ∖ visible w) ∪ visible w
    ∧ pending w1 = ∅
    ∧ ∀ d2 m2,
        heap w1 !! d2 = Some m2 →
        m2 = m ∨ m2 = m ∖ visible w →
        ∃ r2 w2,
          upsert_predictions d2 w1 = (r2, w2)
          ∧ db_log w2 = (db_log w1 ++ [CallQueryAddressIn (map_to_list m2).*1;
                                       CallBulkInsert []; CallFlush; CallCommit]
                           ++ match next_commit w1 with
                              | Some OperationalError => [CallRollback]
                              | _ => []
                              end)%list
          ∧ committed w2 = committed w1
          ∧ heap w2 !! d2 = Some ∅.
Proof.
  intros Hd Hk Hc.
  pose proof (upsert_predictions_run d m w Hd Hk) as Hrun.
  unfold upsert_outcome in Hrun. rewrite Hc in Hrun.
  match type of Hrun with _ = (_, ?x) => set (w1 := x) in * end.
  assert (visible w1 = m ∖ visible w ∪ visible w) as Hvis.
  { unfold visible at 1. subst w1; cbn [pending committed].
    rewrite (left_id_L ∅ (∪)). unfold visible. by rewrite (assoc_L (∪)). }
  assert (committed w1 = m ∖ visible w ∪ visible w) as Hcom.
  { rewrite <- Hvis. unfold visible at 1. subst w1; cbn [pending committed].
    by rewrite (left_id_L ∅ (∪)). }
  exists w1. split; [exact Hrun|].
  split; [subst w1; cbn [heap]; by rewrite lookup_insert_eq|].
  split.
  { intros a r Ha. rewrite Hcom, lookup_union_r; [done|].
    by rewrite lookup_difference, Ha. }
  split; [reflexivity|].
  split; [exact Hcom|].
  split; [reflexivity|].
  intros d2 m2 Hd2 Hm2.
  assert (keyed_by_address m2) as Hk2
    by (destruct Hm2 as [->| ->]; [done | by apply keyed_difference]).
  rewrite (upsert_predictions_run d2 m2 w1 Hd2 Hk2). unfold upsert_outcome.
  rewrite Hvis.
  assert (m2 ∖ (m ∖ visible w ∪ visible w) = ∅) as ->
    by (destruct Hm2 as [->| ->]; apply difference_union_self).
  rewrite map_to_list_empty, fmap_nil.
  replace (pending w1) with (∅ : gmap string (result_row F)) by reflexivity.
  rewrite !(left_id_L ∅ (∪)).
  destruct (next_commit w1) as [e|]; [destruct e|];
    (do 2 eexists; split; [reflexivity|]; cbn [db_log committed heap];
     rewrite lookup_insert_eq, <- ?app_assoc, ?app_nil_r; done).
Qed.

(** C8. When the commit of [upsert_predictions] raises a
    database-operational error, the call prints its message, rolls the
    transaction back and returns normally: the code that follows the call
    in the caller runs, from a state where the table is what it was and
    the open transaction is empty (the rows are not persisted). *)
Theorem upsert_predictions_rolls_back d m w :
  heap w !! d = Some m →
  keyed_by_address m →
  next_commit w = Some OperationalError →
  ∃ w',
    upsert_predictions d w = (Ok tt, w')
    ∧ (∀ (k : M F unit), (upsert_predictions d ;;; k) w = k w')
    ∧ committed w' = committed w
    ∧ pending w' = ∅
    ∧ stdout w' = (stdout w
                   ++ ["Rolling back bulk insert due to operational error"])%list
    ∧ db_log w' = (db_log w ++ [CallQueryAddressIn (map_to_list m).*1;
                                CallBulkInsert (map_to_list (m ∖ visible w)).*2;
                                CallFlush; CallCommit; CallRollback])%list.
Proof.
  intros Hd Hk Hc.
  pose proof (upsert_predictions_run d m w Hd Hk) as Hrun.
  unfold upsert_outcome in Hrun. rewrite Hc in Hrun.
  eexists. split; [exact Hrun|].
  split; [intros k; unfold bind; by rewrite Hrun|].
  simpl. by rewrite <- app_assoc.
Qed.

(** C10. [upsert_predictions] works on the mapping of its caller: after
    the call, whatever the commit did, the object [d] holds the mapping
    without the addresses that the table had, which are exactly the rows
    handed to the bulk insert; when some address was present this is not
    the mapping the caller passed.  No other object changes. *)
Theorem upsert_predictions_mutates_argument d m w :
  heap w !! d = Some m →
  keyed_by_address m →
  ∃ r w' m' calls,
    upsert_predictions d w = (r, w')
    ∧ heap w' !! d = Some m'
    ∧ (∀ a, m' !! a = match visible w !! a with
                       | Some _ => None
                       | None => m !! a
                       end)
    ∧ db_log w' = (db_log w ++ CallQueryAddressIn (map_to_list m).*1
                             :: CallBulkInsert (map_to_list m').*2 :: calls)%list
    ∧ ((∃ a, is_Some (m !! a) ∧ is_Some (visible w !! a)) → m' ≠ m)
    ∧ (∀ d', d' ≠ d → heap w' !! d' = heap w !! d').
Proof.
  intros Hd Hk.
  pose proof (upsert_predictions_run d m w Hd Hk) as Hrun.
  unfold upsert_outcome in Hrun.
  assert (∀ a, (m ∖ visible w) !! a = match visible w !! a with
                                      | Some _ => None
                                      | None => m !! a
                                      end) as Hlook
    by (intros a; rewrite lookup_difference; by destruct (visible w !! a)).
  assert ((∃ a, is_Some (m !! a) ∧ is_Some (visible w !! a)) → m ∖ visible w ≠ m)
    as Hne.
  { intros (a & [r Hr] & [r' Hr']) Heq.
    pose proof (Hlook a) as Ha. rewrite Heq, Hr, Hr' in Ha. done. }
  destruct (next_commit w) as [e|]; [destruct e|];
    (eexists _, _, (m ∖ visible w), _; split; [exact Hrun|]; simpl;
     split; [by rewrite lookup_insert_eq|];
     split; [exact Hlook|];
     split; [rewrite <- ?app_assoc; simpl; reflexivity|];
     split; [exact Hne|];
     intros d' Hd'; by rewrite lookup_insert_ne).
Qed.

End UpsertClaims.


Section MonteCarlo.
Context {F : Type} `{Num F} `{Ext F}.
Implicit Types (w : world F) (st : @mc_locals F) (c : coord F).

(** A pass of the loop, after its draw. *)
Lemma mc_attempt_draw witness_coords eval_mean asserted k st w idx1 idx2 c1 c2 :
  next_draw witness_coords w = Some (idx1, idx2, c1, c2) →
  mc_attempt witness_coords eval_mean asserted k st w
  = (if fle (haversine c1 c2) (lit (5 # 100)%Q) then ret (discarded k st)
     else
       r1 <- list_index eval_mean idx1 ;;
       r2 <- list_index eval_mean idx2 ;;
       if fgt r1 (lit 50%Q) || fgt r2 (lit 50%Q) then
         ret {| mc_i := Z.of_nat k - 1;
                predicted_locations := predicted_locations st |}
       else if flt (radicand r1 r2 (haversine c1 c2)) (lit 0%Q) then
         ret (discarded k st)
       else
         let u := haversine c1 c2 in
         let x_prime := x_prime_of r1 r2 u in
         let y_prime_1 := fsqrt (fsub (fsq r1) (fsq x_prime)) in
         let y_prime_2 := fneg y_prime_1 in
         let phi_1 := get_bearing c1.1 c1.2 (fadd y_prime_1 c1.1) (fadd x_prime c1.2) in
         let phi_2 := get_bearing c1.1 c1.2 (fadd y_prime_2 c1.1) (fadd x_prime c1.2) in
         let pt_1 := inverse_haversine c1 r1 phi_1 in
         let pt_2 := inverse_haversine c1 r1 phi_2 in
         ret {| mc_i := Z.of_nat k;
                predicted_locations :=
                  predicted_locations st
                  ++ [if flt (haversine asserted pt_1) (haversine asserted pt_2)
                      then pt_1 else pt_2] |})
      (tick_rng w).
Proof.
  unfold next_draw. intros Hdraw.
  unfold mc_attempt, bind at 1, permutation3.
  destruct (take 3 _) as [|a [|b [|x [|? ?]]]]; try done.
  destruct (witness_coords !! a) as [ca|] eqn:Ha; [|done].
  destruct (witness_coords !! b) as [cb|] eqn:Hb; [|done].
  injection Hdraw as -> -> -> ->.
  assert (rel : ∀ i c, witness_coords !! i = Some c →
                  list_index witness_coords i (tick_rng w) = (Ok c, tick_rng w))
    by (intros i c Hi; unfold list_index; by rewrite Hi).
  unfold bind at 1. rewrite (rel _ _ Ha).
  unfold bind at 1. rewrite (rel _ _ Hb).
  reflexivity.
Qed.

(** C7. A draw that passes the two guards and whose radicand
    [r1 ** 2 - x_prime ** 2] is negative adds no location to
    [predicted_locations], and the loop goes on with the values the range
    has left: the pass has used up the value [k]. *)
Theorem mc_negative_radicand_consumes_attempt
    witness_coords eval_mean asserted k ks st w idx1 idx2 c1 c2 r1 r2 :
  next_draw witness_coords w = Some (idx1, idx2, c1, c2) →
  fle (haversine c1 c2) (lit (5 # 100)%Q) = false →
  eval_mean !! idx1 = Some r1 →
  eval_mean !! idx2 = Some r2 →
  fgt r1 (lit 50%Q) = false →
  fgt r2 (lit 50%Q) = false →
  flt (radicand r1 r2 (haversine c1 c2)) (lit 0%Q) = true →
  mc_attempt witness_coords eval_mean asserted k st w
  = (Ok (discarded k st), tick_rng w)
  ∧ mc_run witness_coords eval_mean asserted (k :: ks) st w
    = mc_run witness_coords eval_mean asserted ks (discarded k st) (tick_rng w).
Proof.
  intros Hdraw Hu Hr1 Hr2 Hg1 Hg2 Hneg.
  assert (mc_attempt witness_coords eval_mean asserted k st w
          = (Ok (discarded k st), tick_rng w)) as Hpass.
  { rewrite (mc_attempt_draw _ _ _ _ _ _ _ _ _ _ Hdraw), Hu.
    unfold bind, list_index. rewrite Hr1, Hr2. unfold ret.
    by rewrite Hg1, Hg2, Hneg. }
  split; [exact Hpass|].
  simpl. unfold bind at 1. by rewrite Hpass.
Qed.

(** C1, as the code has it.  A draw whose two coordinates are at most
    0.05 km apart adds no location to [predicted_locations] and the loop
    goes on with the values the range has left: the pass has used up the
    value [k].  A draw that passes this guard and has a radius above 50 km
    adds no location either. *)
Theorem mc_guards_discard
    witness_coords eval_mean asserted k ks st w idx1 idx2 c1 c2 :
  next_draw witness_coords w = Some (idx1, idx2, c1, c2) →
  (fle (haversine c1 c2) (lit (5 # 100)%Q) = true →
     mc_attempt witness_coords eval_mean asserted k st w
     = (Ok (discarded k st), tick_rng w)
     ∧ mc_run witness_coords eval_mean asserted (k :: ks) st w
       = mc_run witness_coords eval_mean asserted ks (discarded k st) (tick_rng w))
  ∧ (∀ r1 r2,
       fle (haversine c1 c2) (lit (5 # 100)%Q) = false →
       eval_mean !! idx1 = Some r1 →
       eval_mean !! idx2 = Some r2 →
       fgt r1 (lit 50%Q) || fgt r2 (lit 50%Q) = true →
       ∃ st',
         mc_attempt witness_coords eval_mean asserted k st w = (Ok st', tick_rng w)
         ∧ predicted_locations st' = predicted_locations st).
Proof.
  intros Hdraw. split.
  - intros Hu.
    assert (mc_attempt witness_coords eval_mean asserted k st w
            = (Ok (discarded k st), tick_rng w)) as Hpass
      by (by rewrite (mc_attempt_draw _ _ _ _ _ _ _ _ _ _ Hdraw), Hu).
    split; [exact Hpass|].
    simpl. unfold bind at 1. by rewrite Hpass.
  - intros r1 r2 Hu Hr1 Hr2 Hbig.
    rewrite (mc_attempt_draw _ _ _ _ _ _ _ _ _ _ Hdraw), Hu.
    unfold bind, list_index. rewrite Hr1, Hr2. unfold ret. rewrite Hbig.
    by eexists.
Qed.

End MonteCarlo.

Section MonteCarloRuns.
Local Existing Instance sample_world.

(** C7, on a run: transmitters a degree apart with radii of one
    kilometer have no intersection. *)
Lemma mc_negative_radicand_witness :
  mc_attempt far_coords unit_radii origin 0 no_locations (world0 [])
  = (Ok (discarded 0 no_locations), tick_rng (world0 []))
  ∧ mc_run far_coords unit_radii origin (0%nat :: seq 1 999) no_locations (world0 [])
    = mc_run far_coords unit_radii origin (seq 1 999) (discarded 0 no_locations)
        (tick_rng (world0 [])).
Proof.
  apply (mc_negative_radicand_consumes_attempt far_coords unit_radii origin
           0 (seq 1 999) no_locations (world0 []) 0 1
           origin (Some 1%Q, Some 0%Q) (Some 1%Q) (Some 1%Q));
    reflexivity.
Defined.

(** C1, as the code has it, on two runs: a pair in one place, and a pair
    a degree apart with a radius of 60 km. *)
Lemma mc_guards_discard_witness :
  (mc_attempt near_coords unit_radii origin 0 no_locations (world0 [])
   = (Ok (discarded 0 no_locations), tick_rng (world0 []))
   ∧ mc_run near_coords unit_radii origin (0%nat :: seq 1 999) no_locations (world0 [])
     = mc_run near_coords unit_radii origin (seq 1 999) (discarded 0 no_locations)
         (tick_rng (world0 [])))
  ∧ ∃ st',
      mc_attempt far_coords long_radii origin 0 no_locations (world0 [])
      = (Ok st', tick_rng (world0 []))
      ∧ predicted_locations st' = predicted_locations no_locations.
Proof.
  split.
  - apply (mc_guards_discard near_coords unit_radii origin 0 (seq 1 999)
             no_locations (world0 []) 0 1 origin origin); reflexivity.
  - assert (next_draw far_coords (world0 [])
            = Some (0%nat, 1%nat, origin, (Some 1%Q, Some 0%Q))) as Hdraw
      by reflexivity.
    apply (proj2 (mc_guards_discard far_coords long_radii origin 0 (seq 1 999)
                    no_locations (world0 []) 0 1 origin (Some 1%Q, Some 0%Q) Hdraw)
             (Some 60%Q) (Some 1%Q)); reflexivity.
Defined.

(** C1, as the spec has it, fails.  The first draw on [near_coords] picks
    the two transmitters in one place; with 999 the last value of the
    range, the loop ends there with no location, where a retry of the
    pass would have drawn again and found one.  The draw with a radius
    above 50 km uses up the value in the same way. *)
Lemma mc_discard_not_retried :
  next_draw near_coords (world0 []) = Some (0%nat, 1%nat, origin, origin)
  ∧ fle (haversine origin origin) (lit (5 # 100)%Q) = true
  ∧ mc_run near_coords unit_radii origin [999%nat] no_locations (world0 [])
    = (Ok (discarded 999 no_locations), tick_rng (world0 []))
  ∧ (∃ st', mc_run near_coords unit_radii origin [999%nat] no_locations
              (tick_rng (world0 []))
            = (Ok st', tick_rng (tick_rng (world0 [])))
            ∧ length (predicted_locations st') = 1%nat)
  ∧ ¬ retried_without_consuming near_coords unit_radii origin 999 []
        no_locations (world0 [])
  ∧ ¬ retried_without_consuming far_coords long_radii origin 999 []
        no_locations (world0 []).
Proof.
  split; [reflexivity|]. split; [reflexivity|]. split; [reflexivity|].
  split; [eexists; split; reflexivity|].
  unfold retried_without_consuming.
  split; intros Heq; apply (f_equal (λ x, rng_calls x.2)) in Heq;
    vm_compute in Heq; discriminate.
Qed.

End MonteCarloRuns.

Section MonteCarloTotal.
Context {F : Type} `{Num F} `{Ext F}.
Implicit Types (w : world F) (st : @mc_locals F).

Lemma next_draw_is_Some (witness_coords : list (coord F)) w :
  permutations_ok →
  (3 ≤ length witness_coords)%nat →
  ∃ idx1 idx2 c1 c2,
    next_draw witness_coords w = Some (idx1, idx2, c1, c2)
    ∧ (idx1 < length witness_coords)%nat ∧ (idx2 < length witness_coords)%nat.
Proof.
  intros Hperm Hlen. unfold next_draw.
  pose proof (Hperm (rng_calls w) (length witness_coords)) as Hp.
  assert (∀ i, i ∈ np_random_permutation (rng_calls w) (length witness_coords)
               → (i < length witness_coords)%nat) as Hlt.
  { intros i Hi. rewrite Hp in Hi. apply elem_of_seq in Hi. lia. }
  apply Permutation_length in Hp. rewrite length_seq in Hp.
  destruct (np_random_permutation _ _) as [|a [|b [|x l]]];
    simpl in Hp; try lia.
  simpl.
  destruct (lookup_lt_is_Some_2 witness_coords a) as [c1 Hc1];
    [apply Hlt; set_solver|].
  destruct (lookup_lt_is_Some_2 witness_coords b) as [c2 Hc2];
    [apply Hlt; set_solver|].
  rewrite Hc1, Hc2. exists a, b, c1, c2.
  split; [done|]. split; apply Hlt; set_solver.
Qed.

(** With a permutation at every draw, a pass of the loop returns. *)
Lemma mc_attempt_returns (witness_coords : list (coord F)) eval_mean asserted k st w :
  permutations_ok →
  (3 ≤ length witness_coords)%nat →
  (length witness_coords ≤ length eval_mean)%nat →
  ∃ st', mc_attempt witness_coords eval_mean asserted k st w = (Ok st', tick_rng w).
Proof.
  intros Hperm Hlen Hem.
  destruct (next_draw_is_Some witness_coords w Hperm Hlen)
    as (idx1 & idx2 & c1 & c2 & Hdraw & H1 & H2).
  rewrite (mc_attempt_draw _ _ _ _ _ _ _ _ _ _ Hdraw).
  destruct (fle _ _); [by eexists|].
  destruct (lookup_lt_is_Some_2 eval_mean idx1) as [r1 Hr1]; [lia|].
  destruct (lookup_lt_is_Some_2 eval_mean idx2) as [r2 Hr2]; [lia|].
  unfold bind, list_index. rewrite Hr1, Hr2. unfold ret.
  destruct (_ || _); [by eexists|].
  destruct (flt _ _); by eexists.
Qed.

Lemma mc_run_returns (witness_coords : list (coord F)) eval_mean asserted ks :
  permutations_ok →
  (3 ≤ length witness_coords)%nat →
  (length witness_coords ≤ length eval_mean)%nat →
  ∀ st w, ∃ st' w',
    mc_run witness_coords eval_mean asserted ks st w = (Ok st', w').
Proof.
  intros Hperm Hlen Hem. induction ks as [|k ks IH]; intros st w.
  - by exists st, w.
  - destruct (mc_attempt_returns witness_coords eval_mean asserted k st w
                Hperm Hlen Hem) as [st1 Hst1].
    simpl. unfold bind at 1. rewrite Hst1. apply IH.
Qed.

End MonteCarloTotal.

Section GenerateStats.
Context {F : Type} `{Num F} `{Ext F}.
Implicit Types (w : world F) (details_df : list (detail F))
  (gateway_locations : list (gateway F)) (eval_mean : list F).

Lemma length_witness_coords details_df hotspot :
  length (witness_coords details_df hotspot) = length (rows_of details_df hotspot).
Proof. unfold witness_coords. apply length_fmap. Qed.

Lemma rows_of_le details_df hotspot :
  (length (rows_of details_df hotspot) ≤ length details_df)%nat.
Proof. apply length_filter. Qed.

Lemma hotspot_stats_few details_df gateway_locations eval_mean i hotspot w :
  ¬ qualifies details_df hotspot →
  hotspot_stats details_df gateway_locations eval_mean i hotspot w = (Ok None, w).
Proof.
  unfold qualifies, hotspot_stats. intros Hfew.
  rewrite length_witness_coords.
  destruct (Nat.ltb_spec (length (rows_of details_df hotspot)) 3); [done | lia].
Qed.

(** What the body returns for a witness that qualifies, when it
    returns. *)
Lemma hotspot_stats_Ok details_df gateway_locations eval_mean i hotspot w r w' :
  qualifies details_df hotspot →
  hotspot_stats details_df gateway_locations eval_mean i hotspot w = (Ok r, w') →
  ∃ e predicted,
    r = Some e ∧ se_address e = hotspot
    ∧ emitted details_df gateway_locations eval_mean e predicted.
Proof.
  unfold qualifies, hotspot_stats. intros Hq.
  rewrite length_witness_coords.
  destruct (Nat.ltb_spec (length (rows_of details_df hotspot)) 3); [lia|].
  unfold bind at 1, gateway_loc.
  destruct (filter _ gateway_locations) as [|g [|? ?]] eqn:Hg; try done.
  unfold ret at 1, bind at 1.
  destruct (mc_run _ _ _ _ _ w) as [[st|err] w1] eqn:Hrun; [|done].
  unfold ret. intros [= <- <-].
  eexists _, (predicted_locations st). split; [done|]. split; [done|].
  exists g, i, st, w, w1. simpl.
  split; [|done].
  assert (g ∈ filter (λ g, gw_address g = hotspot) gateway_locations) as Hin
    by (rewrite Hg; apply list_elem_of_here).
  by apply list_elem_of_filter in Hin as [_ Hin].
Qed.

(** With the three rows, a row of the inventory and permutations at
    every draw, the body returns an entry. *)
Lemma hotspot_stats_returns details_df gateway_locations eval_mean i hotspot w g :
  permutations_ok →
  (length details_df ≤ length eval_mean)%nat →
  qualifies details_df hotspot →
  filter (λ g, gw_address g = hotspot) gateway_locations = [g] →
  ∃ e w', hotspot_stats details_df gateway_locations eval_mean i hotspot w
          = (Ok (Some e), w').
Proof.
  unfold qualifies, hotspot_stats. intros Hperm Hem Hq Hg.
  pose proof (rows_of_le details_df hotspot) as Hle.
  rewrite length_witness_coords.
  destruct (Nat.ltb_spec (length (rows_of details_df hotspot)) 3); [lia|].
  unfold bind at 1, gateway_loc. rewrite Hg. unfold ret at 1, bind at 1.
  destruct (mc_run_returns (witness_coords details_df hotspot) eval_mean
              (asserted_location g) (seq 0 N) Hperm)
    with (st := {| mc_i := Z.of_nat i; predicted_locations := @nil (coord F) |})
         (w := w) as (st & w1 & Hrun);
    [rewrite length_witness_coords; lia .. |].
  rewrite Hrun. by eexists _, _.
Qed.

(** The entries the loop over the witnesses adds, when it returns: one
    for each witness that qualifies, in order. *)
Lemma stats_loop_Ok details_df gateway_locations eval_mean hotspots :
  ∀ i0 results0 w results w',
    stats_loop details_df gateway_locations eval_mean i0 hotspots results0 w
    = (Ok results, w') →
    se_address <$> results
    = (se_address <$> results0) ++ filter (qualifies details_df) hotspots
    ∧ ∀ e, e ∈ results →
        e ∈ results0
        ∨ ∃ predicted, emitted details_df gateway_locations eval_mean e predicted.
Proof.
  induction hotspots as [|hotspot hotspots IH]; intros i0 results0 w results w'.
  - simpl. unfold ret. intros [= <- <-]. rewrite app_nil_r. by split; [|left].
  - simpl. unfold bind at 1.
    destruct (decide (qualifies details_df hotspot)) as [Hq|Hq].
    + destruct (hotspot_stats _ _ _ _ _ w) as [[r|err] w1] eqn:Hbody; [|done].
      destruct (hotspot_stats_Ok _ _ _ _ _ _ _ _ Hq Hbody)
        as (e & predicted & -> & Haddr & Hem).
      intros Hloop. apply IH in Hloop as [Haddrs Hall].
      rewrite filter_cons_True by done. split.
      * rewrite Haddrs, fmap_app, <- app_assoc. simpl. by rewrite Haddr.
      * intros e' He'. destruct (Hall e' He') as [Hin|Hin]; [|by right].
        apply elem_of_app in Hin as [Hin|Hin]; [by left|].
        apply list_elem_of_singleton in Hin as ->. right. by exists predicted.
    + rewrite hotspot_stats_few by done.
      intros Hloop. apply IH in Hloop as [Haddrs Hall].
      by rewrite filter_cons_False by done.
Qed.

Lemma stats_loop_returns details_df gateway_locations eval_mean hotspots :
  permutations_ok →
  (length details_df ≤ length eval_mean)%nat →
  (∀ hotspot, hotspot ∈ hotspots → qualifies details_df hotspot →
     ∃ g, filter (λ g, gw_address g = hotspot) gateway_locations = [g]) →
  ∀ i0 results0 w, ∃ results w',
    stats_loop details_df gateway_locations eval_mean i0 hotspots results0 w
    = (Ok results, w').
Proof.
  intros Hperm Hem. induction hotspots as [|hotspot hotspots IH];
    intros Hloc i0 results0 w.
  - by eexists _, _.
  - simpl. unfold bind at 1.
    destruct (decide (qualifies details_df hotspot)) as [Hq|Hq].
    + destruct (Hloc hotspot) as [g Hg]; [set_solver | done |].
      destruct (hotspot_stats_returns details_df gateway_locations eval_mean
                  i0 hotspot w g Hperm Hem Hq Hg) as (e & w1 & ->).
      apply IH. intros h Hh. apply Hloc. set_solver.
    + rewrite hotspot_stats_few by done.
      apply IH. intros h Hh. apply Hloc. set_solver.
Qed.

Lemma rows_of_results_fst current_height (results : list (stats_entry F)) :
  ((λ r : result_row F, (address r, r)) <$> (add_block current_height <$> results)).*1
  = se_address <$> results.
Proof. rewrite <- !list_fmap_compose. by apply list_fmap_ext. Qed.

Lemma lookup_rows_of_results current_height (results : list (stats_entry F)) a row :
  rows_of_results current_height results !! a = Some row →
  ∃ e, e ∈ results ∧ se_address e = a ∧ row = add_block current_height e.
Proof.
  unfold rows_of_results. intros Hrow.
  apply elem_of_list_to_map_2 in Hrow.
  apply list_elem_of_fmap in Hrow as (r & [= -> ->] & Hr).
  apply list_elem_of_fmap in Hr as (e & -> & He).
  by exists e.
Qed.

(** What [generate_stats] returns, when it returns. *)
Lemma generate_stats_Ok details_df gateway_locations eval_mean current_height w d w' :
  generate_stats details_df gateway_locations eval_mean current_height w = (Ok d, w') →
  ∃ results,
    heap w' !! d = Some (rows_of_results current_height results)
    ∧ se_address <$> results
      = filter (qualifies details_df) (remove_dups (d_witness_address <$> details_df))
    ∧ ∀ e, e ∈ results →
        ∃ predicted, emitted details_df gateway_locations eval_mean e predicted.
Proof.
  unfold generate_stats, bind.
  destruct (stats_loop _ _ _ _ _ _ w) as [[results|err] w1] eqn:Hloop; [|done].
  apply stats_loop_Ok in Hloop as [Haddrs Hall].
  destruct results as [|e0 results]; [done|].
  case_decide as Hnd; [|done].
  unfold dict_new. intros [= <- <-]. exists (e0 :: results).
  split; [cbn [heap set_heap]; by rewrite lookup_insert_eq|].
  split; [done|].
  intros e He. destruct (Hall e He) as [Hin|Hin]; [|done].
  by apply elem_of_nil in Hin.
Qed.

Lemma generate_stats_returns details_df gateway_locations eval_mean current_height
    w hotspot :
  permutations_ok →
  (length details_df ≤ length eval_mean)%nat →
  located gateway_locations details_df →
  hotspot ∈ d_witness_address <$> details_df →
  qualifies details_df hotspot →
  ∃ d w', generate_stats details_df gateway_locations eval_mean current_height w
          = (Ok d, w').
Proof.
  intros Hperm Hem Hloc Hin Hq.
  destruct (stats_loop_returns details_df gateway_locations eval_mean
              (remove_dups (d_witness_address <$> details_df)) Hperm Hem)
    with (i0 := 0%nat) (results0 := @nil (stats_entry F)) (w := w)
    as (results & w1 & Hloop).
  { intros h Hh. apply Hloc. by apply elem_of_remove_dups. }
  unfold generate_stats, bind. rewrite Hloop.
  apply stats_loop_Ok in Hloop as [Haddrs _]. simpl in Haddrs.
  assert (hotspot ∈ se_address <$> results) as Hres.
  { rewrite Haddrs. apply list_elem_of_filter. split; [done|].
    by apply elem_of_remove_dups. }
  destruct results as [|e0 results]; [by apply elem_of_nil in Hres|].
  rewrite decide_True; [by eexists _, _|].
  rewrite <- list_fmap_compose.
  change (NoDup (se_address <$> e0 :: results)).
  rewrite Haddrs. apply NoDup_filter, NoDup_remove_dups.
Qed.

(** A witness that qualifies has its row in what [generate_stats]
    returns. *)
Lemma generate_stats_has_row details_df gateway_locations eval_mean current_height
    w hotspot :
  permutations_ok →
  (length details_df ≤ length eval_mean)%nat →
  located gateway_locations details_df →
  hotspot ∈ d_witness_address <$> details_df →
  qualifies details_df hotspot →
  ∃ d w' rows row,
    generate_stats details_df gateway_locations eval_mean current_height w
    = (Ok d, w')
    ∧ heap w' !! d = Some rows
    ∧ rows !! hotspot = Some row
    ∧ address row = hotspot.
Proof.
  intros Hperm Hem Hloc Hin Hq.
  destruct (generate_stats_returns details_df gateway_locations eval_mean
              current_height w hotspot Hperm Hem Hloc Hin Hq) as (d & w' & Hgen).
  pose proof Hgen as Hok.
  apply generate_stats_Ok in Hok as (results & Hheap & Haddrs & _).
  assert (hotspot ∈ se_address <$> results) as Hres.
  { rewrite Haddrs. apply list_elem_of_filter. split; [done|].
    by apply elem_of_remove_dups. }
  apply list_elem_of_fmap in Hres as (e & -> & He).
  exists d, w', (rows_of_results current_height results),
    (add_block current_height e).
  split; [done|]. split; [done|]. split; [|done].
  apply elem_of_list_to_map_1.
  - rewrite rows_of_results_fst, Haddrs.
    apply NoDup_filter, NoDup_remove_dups.
  - apply (list_elem_of_fmap_2 (λ r, (address r, r)) _ (add_block current_height e)).
    by apply list_elem_of_fmap_2.
Qed.

(** C5. A witness with fewer than three rows of transmitter coordinates
    in [details_df] has no row in what [generate_stats] returns; a witness
    with three or more has one: with permutations at every draw, a radius
    for every row and one inventory row for every witness that
    qualifies, [generate_stats] returns a mapping that holds a row for
    it, under its address. *)
Theorem generate_stats_three_coordinates
    details_df gateway_locations eval_mean current_height w :
  permutations_ok →
  (length details_df ≤ length eval_mean)%nat →
  located gateway_locations details_df →
  (∀ hotspot d w' rows,
     (length (witness_coords details_df hotspot) < 3)%nat →
     generate_stats details_df gateway_locations eval_mean current_height w
     = (Ok d, w') →
     heap w' !! d = Some rows →
     rows !! hotspot = None)
  ∧ (∀ hotspot,
       hotspot ∈ d_witness_address <$> details_df →
       (3 ≤ length (witness_coords details_df hotspot))%nat →
       ∃ d w' rows row,
         generate_stats details_df gateway_locations eval_mean current_height w
         = (Ok d, w')
         ∧ heap w' !! d = Some rows
         ∧ rows !! hotspot = Some row
         ∧ address row = hotspot).
Proof.
  intros Hperm Hem Hloc. split.
  - intros hotspot d w' rows Hfew Hgen Hrows.
    rewrite length_witness_coords in Hfew.
    apply generate_stats_Ok in Hgen as (results & Hheap & Haddrs & _).
    rewrite Hheap in Hrows. injection Hrows as <-.
    apply not_elem_of_list_to_map_1.
    rewrite rows_of_results_fst, Haddrs.
    intros [Hq _]%list_elem_of_filter. unfold qualifies in Hq. lia.
  - intros hotspot Hin Hq. rewrite length_witness_coords in Hq.
    by apply generate_stats_has_row.
Qed.

Lemma round_half_even_bounds a b :
  0 < b → 0 ≤ a ≤ 1000 * b → 0 ≤ round_half_even a b ≤ 1000.
Proof.
  intros Hb Ha. unfold round_half_even.
  pose proof (Z.div_mod a b ltac:(lia)) as Hdm.
  pose proof (Z.mod_pos_bound a b Hb) as Hr.
  assert (0 ≤ a / b) as Hq0 by (apply Z.div_pos; lia).
  assert (a / b ≤ 1000) as Hq1 by (apply Z.div_le_upper_bound; lia).
  assert (0 < a mod b → a / b < 1000) as Hq2 by (intros; nia).
  repeat case_match; try lia;
    repeat match goal with
           | Hc : (_ <? _) = false |- _ => apply Z.ltb_ge in Hc
           | Hc : (_ <? _) = true |- _ => apply Z.ltb_lt in Hc
           end; lia.
Qed.

(** The percentage of an entry: ["0"] for no location, and else the text
    of a number of tenths between 0 and 1000. *)
Lemma stats_of_percent details_df (g : gateway F) hotspot (predicted : list (coord F)) :
  (predicted = [] → se_percent (stats_of details_df g hotspot predicted) = "0")
  ∧ ∃ tenths,
      is_percent_text (se_percent (stats_of details_df g hotspot predicted)) tenths
      ∧ 0 ≤ tenths ≤ 1000.
Proof.
  unfold stats_of; cbn [se_percent].
  set (mc := zip (map fst predicted) (map snd predicted)).
  set (pts := length (filter _ mc)).
  assert (pts ≤ length mc)%nat as Hpts by apply length_filter.
  unfold percent_str. split.
  - intros ->. done.
  - destruct (Nat.eqb_spec (length mc) 0) as [Hn|Hn].
    + exists 0. split; [by left | lia].
    + eexists. split; [by right|].
      apply round_half_even_bounds; lia.
Qed.


End GenerateStats.

Section SampleRuns.
Local Existing Instance sample_world.

Lemma sample_permutations_ok : permutations_ok.
Proof.
  intros c n. cbn. unfold rotate.
  rewrite Permutation_app_comm. by rewrite take_drop.
Qed.

Lemma sample_located : located sample_gateways sample_details.
Proof.
  intros hotspot Hin _. cbn in Hin.
  repeat (apply elem_of_cons in Hin as [->|Hin]; [eexists; reflexivity|]).
  by apply elem_of_nil in Hin.
Qed.

Lemma sample_rows_keyed : keyed_by_address sample_rows.
Proof.
  intros k r Hkr. unfold sample_rows in Hkr.
  apply lookup_insert_Some in Hkr as [[<- <-]|[_ Hkr]]; [done|].
  by apply lookup_singleton_Some in Hkr as [<- <-].
Qed.

(** C5, on a run: [b], heard from two transmitters, has no row; [a],
    heard from three, has one. *)
Lemma generate_stats_three_coordinates_witness :
  (∀ d w' rows,
     generate_stats sample_details sample_gateways sample_radii 7 (world0 [])
     = (Ok d, w') →
     heap w' !! d = Some rows → rows !! "b" = None)
  ∧ ∃ d w' rows row,
      generate_stats sample_details sample_gateways sample_radii 7 (world0 [])
      = (Ok d, w')
      ∧ heap w' !! d = Some rows
      ∧ rows !! "a" = Some row
      ∧ address row = "a".
Proof.
  destruct (generate_stats_three_coordinates sample_details sample_gateways
              sample_radii 7 (world0 []) sample_permutations_ok)
    as [Hfew Hmany]; [vm_compute; lia | exact sample_located |].
  split.
  - intros d w' rows. apply Hfew. vm_compute; lia.
  - apply Hmany; [|vm_compute; lia].
    apply (list_elem_of_fmap_2 d_witness_address sample_details
             (mk_detail "t1" "a" origin 1)).
    apply list_elem_of_here.
Defined.


(** C3, on a run: of the rows for [a] and [b], only [b] is inserted
    and the row the table had for [a] stays. *)
Lemma upsert_predictions_insert_only_idempotent_witness :
  ∃ w1,
    upsert_predictions 1%positive (stored_world []) = (Ok tt, w1)
    ∧ heap w1 !! 1%positive = Some (sample_rows ∖ visible (stored_world []))
    ∧ committed w1 !! "a" = Some (sample_row "a" 5)
    ∧ ∃ r2 w2,
        upsert_predictions 1%positive w1 = (r2, w2)
        ∧ committed w2 = committed w1.
Proof.
  destruct (upsert_predictions_insert_only_idempotent 1%positive sample_rows
              (stored_world []))
    as (w1 & Hrun & Hheap & Hkeep & _ & _ & _ & Hagain);
    [reflexivity | exact sample_rows_keyed | reflexivity |].
  exists w1. split; [exact Hrun|]. split; [exact Hheap|].
  split; [apply Hkeep; reflexivity|].
  destruct (Hagain 1%positive (sample_rows ∖ visible (stored_world [])) Hheap)
    as (r2 & w2 & Hrun2 & _ & Hsame & _); [by right|].
  by exists r2, w2.
Defined.

(** C8, on a run: the commit fails. *)
Lemma upsert_predictions_rolls_back_witness :
  ∃ w',
    upsert_predictions 1%positive (stored_world [Some OperationalError])
    = (Ok tt, w')
    ∧ committed w' = committed (stored_world [Some OperationalError])
    ∧ pending w' = ∅.
Proof.
  destruct (upsert_predictions_rolls_back 1%positive sample_rows
              (stored_world [Some OperationalError]))
    as (w' & Hrun & _ & Hcom & Hpend & _);
    [reflexivity | exact sample_rows_keyed | reflexivity |].
  by exists w'.
Defined.

(** C10, on a run: the object holds the row of [b] alone afterwards. *)
Lemma upsert_predictions_mutates_argument_witness :
  ∃ r w' m',
    upsert_predictions 1%positive (stored_world []) = (r, w')
    ∧ heap w' !! 1%positive = Some m'
    ∧ m' !! "a" = None
    ∧ m' !! "b" = Some (sample_row "b" 7).
Proof.
  destruct (upsert_predictions_mutates_argument 1%positive sample_rows
              (stored_world []))
    as (r & w' & m' & calls & Hrun & Hheap & Hlook & _);
    [reflexivity | exact sample_rows_keyed |].
  exists r, w', m'. split; [exact Hrun|]. split; [exact Hheap|].
  split; rewrite Hlook; reflexivity.
Defined.

End SampleRuns.

(** * Properties of the whole script *)

Section TopoFacts.
Context {F : Type} `{Num F} `{Ext F}.

Lemma length_zeros_like (d_vec : list F) : length (zeros_like d_vec) = length d_vec.
Proof. unfold zeros_like. apply length_fmap. Qed.

Lemma length_index_list (x : edge F) d_vec : length (index_list x d_vec) = length d_vec.
Proof. unfold index_list. apply length_fmap. Qed.

(** The sampling loop overwrites the slots from [i] on, one per point. *)
Lemma sample_loop_sampled ds points elevations :
  sampled ds points elevations →
  ∀ i elevation_profile,
    (i + length points ≤ length elevation_profile)%nat →
    sample_loop ds i points elevation_profile
    = Ok (take i elevation_profile ++ elevations
          ++ drop (i + length points) elevation_profile).
Proof.
  induction 1 as [|pt e points elevations Hpt _ IH]; intros i prof Hlen.
  - simpl. by rewrite Nat.add_0_r, take_drop.
  - simpl in *. rewrite Hpt, IH by (rewrite length_insert; lia).
    f_equal.
    rewrite (take_S_r _ _ e) by (apply list_lookup_insert_eq; lia).
    rewrite take_insert_ge by lia.
    rewrite drop_insert_lt by lia.
    replace (i + S (length points))%nat with (S i + length points)%nat by lia.
    by rewrite <- app_assoc.
Qed.

Lemma sample_loop_raises ds points :
  ∀ i elevation_profile pt err,
    pt ∈ points → rasterio_sample ds pt = Raise err →
    ∃ err', sample_loop ds i points elevation_profile = Raise err'.
Proof.
  induction points as [|pt0 points IH]; intros i prof pt err Hin Hpt.
  - by apply elem_of_nil in Hin.
  - simpl. destruct (rasterio_sample ds pt0) as [e|err0] eqn:Hpt0; [|by eexists].
    apply elem_of_cons in Hin as [->|Hin]; [congruence|].
    by eapply IH.
Qed.

Lemma sample_loop_Ok ds points :
  ∀ i elevation_profile profile',
    sample_loop ds i points elevation_profile = Ok profile' →
    ∃ elevations, sampled ds points elevations.
Proof.
  induction points as [|pt points IH]; intros i prof prof' Hrun.
  - exists []. constructor.
  - simpl in Hrun. destruct (rasterio_sample ds pt) as [e|err] eqn:Hpt; [|done].
    apply IH in Hrun as [elevations Hs].
    exists (e :: elevations). by constructor.
Qed.

(** X1. [map_topo_features] returns the NaN vector as soon as one raster
    sample along the path raises, wherever on the path it is. *)
Theorem map_topo_features_sample_error (x : edge F) ds d_vec pt err :
  np_arange (lit 0%Q) (fdiv (distance_m x) (lit 1000%Q)) (lit (3 # 10)%Q) = Ok d_vec →
  pt ∈ index_list x d_vec →
  rasterio_sample ds pt = Raise err →
  map_topo_features x ds = nan_features.
Proof.
  intros Hd Hin Hpt. unfold map_topo_features, topo_pipeline. rewrite Hd.
  destruct (sample_loop_raises ds (index_list x d_vec) 0 (zeros_like d_vec)
              pt err Hin Hpt) as [err' ->].
  done.
Qed.

(** X2. When every point of the path is sampled and the profile is
    levelled and measured without error, [map_topo_features] returns the
    descriptors of the profile that holds, at the place of each distance,
    the elevation sampled at its point: no zero of the initial profile is
    left. *)
Theorem map_topo_features_profile (x : edge F) ds d_vec elevations levelled features :
  np_arange (lit 0%Q) (fdiv (distance_m x) (lit 1000%Q)) (lit (3 # 10)%Q) = Ok d_vec →
  sampled ds (index_list x d_vec) elevations →
  level_profile d_vec elevations = Ok levelled →
  extract_topographic_features d_vec levelled = Ok features →
  map_topo_features x ds = features.
Proof.
  intros Hd Hs Hl Hf. unfold map_topo_features, topo_pipeline. rewrite Hd.
  rewrite (sample_loop_sampled ds _ _ Hs)
    by (rewrite length_index_list, length_zeros_like; lia).
  rewrite take_0, drop_ge, app_nil_r
    by (rewrite length_index_list, length_zeros_like; simpl; lia).
  simpl. by rewrite Hl, Hf.
Qed.

(** X3. Whatever the edge and the raster, [map_topo_features] returns
    either the NaN vector or what the extractor made of a profile whose
    points were all sampled. *)
Theorem map_topo_features_cases (x : edge F) ds :
  map_topo_features x ds = nan_features
  ∨ ∃ d_vec elevations levelled,
      np_arange (lit 0%Q) (fdiv (distance_m x) (lit 1000%Q)) (lit (3 # 10)%Q)
      = Ok d_vec
      ∧ sampled ds (index_list x d_vec) elevations
      ∧ level_profile d_vec elevations = Ok levelled
      ∧ extract_topographic_features d_vec levelled = Ok (map_topo_features x ds).
Proof.
  unfold map_topo_features, topo_pipeline.
  destruct (np_arange _ _ _) as [d_vec|?] eqn:Hd; [|by left].
  destruct (sample_loop _ _ _ _) as [prof|?] eqn:Hrun; [|by left].
  pose proof Hrun as [elevations Hs]%sample_loop_Ok.
  rewrite (sample_loop_sampled ds _ _ Hs) in Hrun
    by (rewrite length_index_list, length_zeros_like; lia).
  rewrite take_0, drop_ge, app_nil_r in Hrun
    by (rewrite length_index_list, length_zeros_like; simpl; lia).
  simpl in Hrun. injection Hrun as <-.
  destruct (level_profile _ _) as [levelled|?] eqn:Hl; [|by left].
  destruct (extract_topographic_features _ _) as [features|?] eqn:Hf; [|by left].
  right. by exists d_vec, elevations, levelled.
Qed.

End TopoFacts.

Section Frames.
Context {F : Type}.
Implicit Types (w : world F).

Lemma keeps_ret {A B} (f : world F → B) (a : A) : keeps f (ret a).
Proof. done. Qed.

Lemma keeps_raise {A B} (f : world F → B) e : keeps f (@raise F A e).
Proof. done. Qed.

Lemma keeps_lift {A B} (f : world F → B) (r : result A) : keeps f (lift r).
Proof. done. Qed.

Lemma keeps_bind {A A' B} (f : world F → B) (m : M F A) (k : A → M F A') :
  keeps f m → (∀ a, keeps f (k a)) → keeps f (bind m k).
Proof.
  intros Hm Hk w. unfold bind. specialize (Hm w).
  destruct (m w) as [[a|e] w1]; simpl in *; [|done].
  by rewrite Hk.
Qed.

Lemma keeps_try_except {A B} (f : world F → B) (m : M F A) (handler : exn → M F A) :
  keeps f m → (∀ e, keeps f (handler e)) → keeps f (try_except m handler).
Proof.
  intros Hm Hh w. unfold try_except. specialize (Hm w).
  destruct (m w) as [[a|e] w1]; simpl in *; [done|].
  by rewrite Hh.
Qed.

Lemma keeps_for_each {A B} (f : world F → B) (xs : list A) (body : A → M F unit) :
  (∀ x, keeps f (body x)) → keeps f (for_each xs body).
Proof.
  intros Hb. induction xs as [|x xs IH]; [done|].
  simpl. apply keeps_bind; [apply Hb | done].
Qed.

Lemma keeps_modify {B} (f : world F → B) (g : world F → world F) :
  (∀ w, f (g w) = f w) → keeps f (modify g).
Proof. intros Hg w. apply Hg. Qed.

End Frames.

Section UpsertFrame.
Context {F : Type}.

(** [upsert_predictions] touches the object, the session and the
    output, and nothing else. *)
Lemma upsert_predictions_keeps {B} (f : world F → B) d :
  ignores_heap f → ignores_session f → keeps f (upsert_predictions d).
Proof.
  intros Hh (Hlog & Hpend & Hcom & Hfaults & Hout).
  assert (keeps f (dict_keys d)) as Hkeys
    by (intros w; unfold dict_keys; by destruct (heap w !! d)).
  assert (keeps f (dict_values d)) as Hvalues
    by (intros w; unfold dict_values; by destruct (heap w !! d)).
  assert (∀ k, keeps f (dict_pop d k)) as Hpop.
  { intros k w. unfold dict_pop.
    destruct (heap w !! d) as [m|]; [|done].
    destruct (m !! k); [apply Hh | done]. }
  assert (∀ r : result_row F, keeps f (insert_row r)) as Hins.
  { intros r w. unfold insert_row.
    destruct (visible w !! address r); [done | apply Hpend]. }
  assert (keeps f commit) as Hcommit.
  { intros w. unfold commit.
    destruct (commit_faults (log_call CallCommit w)) as [|[e|] fs]; simpl;
      rewrite ?Hfaults, ?Hpend, ?Hcom; apply Hlog. }
  unfold upsert_predictions.
  apply keeps_bind; [done|]. intros keys.
  apply keeps_bind; [intros w; apply Hlog|]. intros present.
  apply keeps_bind; [by apply keeps_for_each|]. intros _.
  apply keeps_bind; [done|]. intros entries.
  apply keeps_bind.
  { apply keeps_bind; [by apply keeps_modify|]. intros _.
    by apply keeps_for_each. }
  intros _. apply keeps_bind; [by apply keeps_modify|]. intros _.
  apply keeps_try_except; [done|].
  intros e. destruct e; try apply keeps_raise.
  apply keeps_bind; [by apply keeps_modify|]. intros _.
  apply keeps_modify. intros w. by rewrite Hpend, Hlog.
Qed.

End UpsertFrame.

Section StatsFrame.
Context {F : Type} `{Num F} `{Ext F}.

Lemma list_index_keeps {A B} (f : world F → B) (l : list A) i :
  keeps f (list_index l i).
Proof. intros w. unfold list_index. by destruct (l !! i). Qed.

Lemma mc_attempt_keeps {B} (f : world F → B) witness_coords eval_mean asserted k st :
  ignores_rng f → keeps f (mc_attempt witness_coords eval_mean asserted k st).
Proof.
  intros Hrng. unfold mc_attempt.
  apply keeps_bind.
  { intros w. unfold permutation3.
    destruct (take 3 _) as [|? [|? [|? [|? ?]]]]; apply Hrng. }
  intros [[idx1 idx2] idx3].
  apply keeps_bind; [apply list_index_keeps|]. intros c1.
  apply keeps_bind; [apply list_index_keeps|]. intros c2.
  destruct (fle _ _); [apply keeps_ret|].
  apply keeps_bind; [apply list_index_keeps|]. intros r1.
  apply keeps_bind; [apply list_index_keeps|]. intros r2.
  destruct (_ || _); [apply keeps_ret|].
  destruct (flt _ _); apply keeps_ret.
Qed.

Lemma mc_run_keeps {B} (f : world F → B) witness_coords eval_mean asserted ks :
  ignores_rng f → ∀ st, keeps f (mc_run witness_coords eval_mean asserted ks st).
Proof.
  intros Hrng. induction ks as [|k ks IH]; intros st; [apply keeps_ret|].
  simpl. apply keeps_bind; [by apply mc_attempt_keeps | done].
Qed.

Lemma hotspot_stats_keeps {B} (f : world F → B) details_df gateway_locations
    eval_mean i hotspot :
  ignores_rng f →
  keeps f (hotspot_stats details_df gateway_locations eval_mean i hotspot).
Proof.
  intros Hrng. unfold hotspot_stats.
  destruct (_ <? _)%nat; [apply keeps_ret|].
  apply keeps_bind.
  { unfold gateway_loc.
    destruct (filter _ _) as [|? [|? ?]];
      [apply keeps_raise | apply keeps_ret | apply keeps_raise]. }
  intros g. apply keeps_bind; [by apply mc_run_keeps|].
  intros st. apply keeps_ret.
Qed.

Lemma stats_loop_keeps {B} (f : world F → B) details_df gateway_locations
    eval_mean hotspots :
  ignores_rng f →
  ∀ i0 results,
    keeps f (stats_loop details_df gateway_locations eval_mean i0 hotspots results).
Proof.
  intros Hrng. induction hotspots as [|hotspot hotspots IH]; intros i0 results;
    [apply keeps_ret|].
  simpl. apply keeps_bind; [by apply hotspot_stats_keeps|].
  intros r. apply IH.
Qed.

Lemma generate_stats_keeps {B} (f : world F → B) details_df gateway_locations
    eval_mean current_height :
  ignores_rng f → ignores_heap f →
  keeps f (generate_stats details_df gateway_locations eval_mean current_height).
Proof.
  intros Hrng Hheap. unfold generate_stats.
  apply keeps_bind; [by apply stats_loop_keeps|].
  intros [|e results]; [apply keeps_raise|].
  case_decide; [|apply keeps_raise].
  intros w. apply Hheap.
Qed.

End StatsFrame.

Section StatsExtras.
Context {F : Type} `{Num F} `{Ext F}.
Implicit Types (w : world F) (details_df : list (detail F))
  (gateway_locations : list (gateway F)) (eval_mean : list F).

Lemma session_of_ignores_rng : ignores_rng (@session_of F).
Proof. done. Qed.

Lemma session_of_ignores_heap : ignores_heap (@session_of F).
Proof. done. Qed.

(** X4. [generate_stats] leaves the session, the output and the log of
    extractions alone, and changes no dict object that exists: when it
    returns, the object it returns is a new one; when it raises, the
    objects are as they were. *)
Theorem generate_stats_frame details_df gateway_locations eval_mean current_height w :
  let run := generate_stats details_df gateway_locations eval_mean current_height w in
  session_of run.2 = session_of w
  ∧ topo_log run.2 = topo_log w
  ∧ match run.1 with
    | Ok d => heap w !! d = None ∧ ∀ d', d' ≠ d → heap run.2 !! d' = heap w !! d'
    | Raise _ => heap run.2 = heap w
    end.
Proof.
  intros run. split; [|split].
  - by apply generate_stats_keeps.
  - by apply (generate_stats_keeps (@topo_log F)).
  - subst run. unfold generate_stats, bind.
    pose proof (stats_loop_keeps (@heap F) details_df gateway_locations eval_mean
                  (remove_dups (d_witness_address <$> details_df))
                  ltac:(done) 0%nat [] w) as Hheap.
    destruct (stats_loop _ _ _ _ _ _ w) as [[results|err] w1]; simpl in *; [|done].
    destruct results as [|e results]; [done|].
    case_decide; [|done].
    unfold dict_new; cbn [fst snd heap set_heap]. rewrite Hheap. split.
    + apply (not_elem_of_dom (D := gset positive)), is_fresh.
    + intros d' Hd'. by rewrite lookup_insert_ne.
Qed.

Lemma hotspot_stats_all_few details_df gateway_locations eval_mean hotspots :
  (∀ hotspot, hotspot ∈ hotspots → ¬ qualifies details_df hotspot) →
  ∀ i0 results w,
    stats_loop details_df gateway_locations eval_mean i0 hotspots results w
    = (Ok results, w).
Proof.
  induction hotspots as [|hotspot hotspots IH]; intros Hfew i0 results w; [done|].
  simpl. unfold bind at 1. rewrite hotspot_stats_few by (apply Hfew; by left).
  apply IH. intros h Hh. apply Hfew. by right.
Qed.

(** X5. When no witness of [details_df] has three rows (an empty frame
    included), [generate_stats] raises [KeyError] and leaves the world as
    it was: no draw is made and no object is created. *)
Theorem generate_stats_no_witness details_df gateway_locations eval_mean
    current_height w :
  (∀ hotspot, ¬ qualifies details_df hotspot) →
  generate_stats details_df gateway_locations eval_mean current_height w
  = (Raise KeyError, w).
Proof.
  intros Hfew. unfold generate_stats, bind.
  by rewrite hotspot_stats_all_few.
Qed.

Lemma length_filter_and {A} (P Q : A → Prop) `{!∀ x, Decision (P x)}
    `{!∀ x, Decision (Q x)} (l : list A) :
  (length (filter (λ x, P x ∧ Q x) l) ≤ length (filter P l))%nat.
Proof.
  induction l as [|x l IH]; [done|].
  destruct (decide (P x)) as [HP|HP].
  - rewrite (filter_cons_True P) by done.
    destruct (decide (Q x)).
    + rewrite filter_cons_True by done. simpl. lia.
    + rewrite filter_cons_False by tauto. simpl. lia.
  - rewrite (filter_cons_False P) by done.
    by rewrite filter_cons_False by tauto.
Qed.

Lemma rows_of_results_keyed current_height (results : list (stats_entry F)) :
  keyed_by_address (rows_of_results current_height results).
Proof.
  intros a row Hrow.
  by apply lookup_rows_of_results in Hrow as (e & _ & <- & ->).
Qed.

(** X6. What [generate_stats] returns is a mapping in which every row
    sits under its own address, carries the height of the call, belongs
    to a witness of [details_df] with at least three rows, counts these
    rows as the beaconers heard, and counts no more outliers than
    beaconers. *)
Theorem generate_stats_rows
    details_df gateway_locations eval_mean current_height w d w' rows :
  generate_stats details_df gateway_locations eval_mean current_height w = (Ok d, w') →
  heap w' !! d = Some rows →
  keyed_by_address rows
  ∧ ∀ a row, rows !! a = Some row →
      block row = current_height
      ∧ a ∈ d_witness_address <$> details_df
      ∧ n_beaconers_heard row = length (rows_of details_df a)
      ∧ (3 ≤ n_beaconers_heard row)%nat
      ∧ (n_outliers row ≤ n_beaconers_heard row)%nat.
Proof.
  intros Hgen Hrows.
  apply generate_stats_Ok in Hgen as (results & Hheap & Haddrs & Hall).
  rewrite Hheap in Hrows. injection Hrows as <-.
  split; [apply rows_of_results_keyed|].
  intros a row Hrow.
  apply lookup_rows_of_results in Hrow as (e & He & <- & ->).
  assert (se_address e ∈ se_address <$> results) as Hin
    by by apply list_elem_of_fmap_2.
  rewrite Haddrs in Hin. apply list_elem_of_filter in Hin as [Hq Hin].
  apply (proj1 (elem_of_remove_dups _ _)) in Hin.
  destruct (Hall e He) as (predicted & g & i & st & w1 & w2 & _ & _ & _ & Hstats).
  cbn [add_block block n_beaconers_heard n_outliers].
  split; [done|]. split; [done|].
  assert (se_n_beaconers_heard e = length (rows_of details_df (se_address e))
          ∧ se_n_outliers e
            = length (filter (λ d, d_witness_address d = se_address e
                                   ∧ d_outliers d < 0) details_df))
    as [-> ->] by (by rewrite Hstats at 1 3).
  split; [done|]. split; [exact Hq|].
  apply (length_filter_and (λ d, d_witness_address d = se_address e)
           (λ d, d_outliers d < 0)).
Qed.

End StatsExtras.

Section StatsDraws.
Context {F : Type} `{Num F} `{Ext F}.
Implicit Types (w : world F) (st : @mc_locals F) (details_df : list (detail F))
  (gateway_locations : list (gateway F)) (eval_mean : list F).

(** A pass that returns has drawn once and added at most one location. *)
Lemma mc_attempt_Ok witness_coords eval_mean asserted k st w st' w' :
  mc_attempt witness_coords eval_mean asserted k st w = (Ok st', w') →
  w' = tick_rng w
  ∧ ∃ more, predicted_locations st' = predicted_locations st ++ more
            ∧ (length more ≤ 1)%nat.
Proof.
  unfold mc_attempt, bind at 1, permutation3.
  destruct (take 3 _) as [|idx1 [|idx2 [|idx3 [|? ?]]]]; try done.
  unfold bind, list_index, ret, raise.
  destruct (witness_coords !! idx1) as [c1|]; [|done].
  destruct (witness_coords !! idx2) as [c2|]; [|done].
  assert (∀ st0 : @mc_locals F,
            predicted_locations st0 = predicted_locations st →
            (Ok st0, tick_rng w) = (Ok st', w') →
            w' = tick_rng w
            ∧ ∃ more, predicted_locations st' = predicted_locations st ++ more
                      ∧ (length more ≤ 1)%nat) as Hsame.
  { intros st0 Hst0 [= <- <-]. split; [done|].
    exists []. split; [by rewrite app_nil_r | simpl; lia]. }
  cbn beta iota zeta.
  destruct (fle _ _); cbn iota beta; [by apply Hsame|].
  destruct (eval_mean !! idx1) as [r1|]; cbn iota beta; [|done].
  destruct (eval_mean !! idx2) as [r2|]; cbn iota beta; [|done].
  destruct (_ || _); cbn iota beta; [by apply Hsame|].
  destruct (flt _ _); cbn iota beta zeta; [by apply Hsame|].
  intros [= <- <-]. split; [done|].
  eexists [_]. split; [done | simpl; lia].
Qed.

Lemma mc_run_Ok witness_coords eval_mean asserted ks :
  ∀ st w st' w',
    mc_run witness_coords eval_mean asserted ks st w = (Ok st', w') →
    rng_calls w' = (rng_calls w + length ks)%nat
    ∧ ∃ more, predicted_locations st' = predicted_locations st ++ more
              ∧ (length more ≤ length ks)%nat.
Proof.
  induction ks as [|k ks IH]; intros st w st' w'.
  - simpl. unfold ret. intros [= <- <-]. split; [lia|].
    exists []. by rewrite app_nil_r.
  - simpl. unfold bind at 1.
    destruct (mc_attempt _ _ _ _ _ w) as [[st1|err] w1] eqn:Hpass; [|done].
    apply mc_attempt_Ok in Hpass as (-> & more1 & Hmore1 & Hlen1).
    intros Hrun. apply IH in Hrun as (Hrng & more & Hmore & Hlen).
    split; [rewrite Hrng; simpl; lia|].
    exists (more1 ++ more).
    split; [by rewrite Hmore, Hmore1, app_assoc|].
    rewrite length_app. simpl. lia.
Qed.

(** X7. The sampling loop draws once per value of the range and never
    again: a run over [ks] that returns has made [length ks] draws, has
    kept the locations it started with and has added at most [length ks]
    more. *)
Theorem mc_run_draws witness_coords eval_mean asserted ks st w st' w' :
  mc_run witness_coords eval_mean asserted ks st w = (Ok st', w') →
  rng_calls w' = (rng_calls w + length ks)%nat
  ∧ predicted_locations st `prefix_of` predicted_locations st'
  ∧ (length (predicted_locations st')
     ≤ length (predicted_locations st) + length ks)%nat.
Proof.
  intros Hmc.
  apply mc_run_Ok in Hmc as (Hrng & more & Hmore & Hlen).
  split; [done|]. split; [by exists more|].
  rewrite Hmore, length_app. lia.
Qed.

Lemma emitted_at_most_N details_df gateway_locations eval_mean
    (e : stats_entry F) predicted :
  emitted details_df gateway_locations eval_mean e predicted →
  (length predicted ≤ N)%nat.
Proof.
  intros (g & i & st & w1 & w2 & _ & Hrun & -> & _).
  apply mc_run_Ok in Hrun as (_ & more & Hmore & Hlen).
  rewrite Hmore. simpl. by rewrite length_seq in Hlen.
Qed.

Lemma hotspot_stats_draws details_df gateway_locations eval_mean i hotspot w e w' :
  hotspot_stats details_df gateway_locations eval_mean i hotspot w = (Ok (Some e), w') →
  rng_calls w' = (rng_calls w + N)%nat.
Proof.
  unfold hotspot_stats. destruct (_ <? _)%nat; [done|].
  unfold bind at 1, gateway_loc.
  destruct (filter _ gateway_locations) as [|g [|? ?]]; try done.
  unfold ret at 1, bind at 1.
  destruct (mc_run _ _ _ _ _ w) as [[st|err] w1] eqn:Hrun; [|done].
  unfold ret. intros [= _ <-].
  apply mc_run_Ok in Hrun as [-> _]. by rewrite length_seq.
Qed.

Lemma stats_loop_draws details_df gateway_locations eval_mean hotspots :
  ∀ i0 results0 w results w',
    stats_loop details_df gateway_locations eval_mean i0 hotspots results0 w
    = (Ok results, w') →
    rng_calls w'
    = (rng_calls w + N * length (filter (qualifies details_df) hotspots))%nat.
Proof.
  induction hotspots as [|hotspot hotspots IH]; intros i0 results0 w results w'.
  - cbn [stats_loop]. unfold ret. intros [= _ <-].
    rewrite filter_nil. cbn [length]. lia.
  - cbn [stats_loop]. unfold bind at 1.
    destruct (decide (qualifies details_df hotspot)) as [Hq|Hq].
    + destruct (hotspot_stats _ _ _ _ _ w) as [[r|err] w1] eqn:Hbody; [|done].
      destruct (hotspot_stats_Ok _ _ _ _ _ _ _ _ Hq Hbody)
        as (e & predicted & -> & _ & _).
      apply hotspot_stats_draws in Hbody.
      intros Hloop. apply IH in Hloop.
      rewrite filter_cons_True by done.
      rewrite length_cons, Nat.mul_succ_r. lia.
    + rewrite hotspot_stats_few by done.
      intros Hloop. apply IH in Hloop.
      by rewrite filter_cons_False by done.
Qed.

(** X8. A call of [generate_stats] that returns has made exactly
    [N = 1000] draws for each witness with three rows or more, discarded
    draws included, and each row it returns is made of at most [N]
    locations. *)
Theorem generate_stats_draws
    details_df gateway_locations eval_mean current_height w d w' :
  generate_stats details_df gateway_locations eval_mean current_height w = (Ok d, w') →
  rng_calls w'
  = (rng_calls w
     + N * length (filter (qualifies details_df)
                     (remove_dups (d_witness_address <$> details_df))))%nat
  ∧ ∀ rows a row,
      heap w' !! d = Some rows → rows !! a = Some row →
      ∃ e predicted,
        row = add_block current_height e
        ∧ emitted details_df gateway_locations eval_mean e predicted
        ∧ (length predicted ≤ N)%nat.
Proof.
  intros Hgen. split.
  - revert Hgen. unfold generate_stats, bind.
    destruct (stats_loop _ _ _ _ _ _ w) as [[results|err] w1] eqn:Hloop; [|done].
    apply stats_loop_draws in Hloop.
    destruct results as [|e results]; [done|].
    case_decide; [|done].
    unfold dict_new. by intros [= _ <-].
  - intros rows a row Hrows Hrow.
    apply generate_stats_Ok in Hgen as (results & Hheap & _ & Hall).
    rewrite Hheap in Hrows. injection Hrows as <-.
    apply lookup_rows_of_results in Hrow as (e & He & _ & ->).
    destruct (Hall e He) as [predicted Hem].
    exists e, predicted. split; [done|]. split; [done|].
    by eapply emitted_at_most_N.
Qed.

End StatsDraws.

Section EdgesLoop.
Context {F : Type} `{Num F} `{Ext F}.
Implicit Types (w : world F).

Lemma with_topo_log_nil w : with_topo_log [] w = w.
Proof. destruct w. unfold with_topo_log; simpl. by rewrite app_nil_r. Qed.

Lemma with_topo_log_cons (x : edge F) xs w :
  with_topo_log xs (log_topo x w) = with_topo_log (x :: xs) w.
Proof.
  destruct w. unfold with_topo_log, log_topo; simpl.
  by rewrite <- app_assoc.
Qed.

Lemma edges_loop_outcome (ds : dataset) witness_edges :
  ∀ path_features path_details w,
    edges_loop ds witness_edges path_features path_details w
    = (Ok (path_features
           ++ ((λ x, features_of (map_topo_features x ds) x)
                 <$> List.filter (usable ds) witness_edges),
           path_details ++ (details_of <$> List.filter (usable ds) witness_edges)),
       with_topo_log (List.filter (λ x, negb (out_of_band x)) witness_edges) w).
Proof.
  induction witness_edges as [|x witness_edges IH];
    intros path_features path_details w.
  - cbn [edges_loop List.filter fmap list_fmap]. unfold ret.
    by rewrite !app_nil_r, with_topo_log_nil.
  - cbn [edges_loop List.filter].
    change (fgt (distance_m x) (lit 50000%Q) || flt (distance_m x) (lit 50%Q))
      with (out_of_band x).
    destruct (out_of_band x) eqn:Hband.
    + replace (usable ds x) with false by (unfold usable; by rewrite Hband).
      cbn [negb]. apply IH.
    + unfold bind at 1, modify at 1. cbn [negb].
      destruct (fisnan (ra (map_topo_features x ds))) eqn:Hnan.
      * replace (usable ds x) with false
          by (unfold usable; by rewrite Hband, Hnan).
        by rewrite IH, with_topo_log_cons.
      * replace (usable ds x) with true
          by (unfold usable; by rewrite Hband, Hnan).
        rewrite IH, with_topo_log_cons.
        by rewrite !fmap_cons, <- !app_assoc.
Qed.

(** X9. The loop over the edges of a node, started as the source starts
    it with two empty lists, never raises.  It hands to
    [map_topo_features] the edges that pass its guard, in their order and
    no others, and it keeps the features and the details, in step (one of
    each per edge, in the order of the edges), of those among them whose
    [ra] is not NaN. *)
Theorem edges_loop_run (ds : dataset) witness_edges w :
  ∃ kept,
    kept = List.filter (usable ds) witness_edges
    ∧ edges_loop ds witness_edges [] [] w
      = (Ok ((λ x, features_of (map_topo_features x ds) x) <$> kept,
             details_of <$> kept),
         with_topo_log (List.filter (λ x, negb (out_of_band x)) witness_edges) w)
    ∧ Forall (λ x, flt (distance_m x) (lit 50%Q) = false
                   ∧ fgt (distance_m x) (lit 50000%Q) = false
                   ∧ fisnan (ra (map_topo_features x ds)) = false) kept.
Proof.
  eexists. split; [done|]. split; [by rewrite edges_loop_outcome|].
  apply Forall_forall. intros x Hx.
  apply list_elem_of_In, filter_In in Hx as [_ Hx].
  unfold usable, out_of_band in Hx.
  apply andb_true_iff in Hx as [Hband Hnan].
  apply negb_true_iff, orb_false_iff in Hband as [Hfar Hnear].
  apply negb_true_iff in Hnan. done.
Qed.

End EdgesLoop.

Section Node.
Context {F : Type} `{Num F} `{Ext F}.
Implicit Types (w : world F) (gateway_locations : list (gateway F)).

(** The body of the sweep for a node whose edges were fetched and whose
    raster was opened. *)
Lemma process_node_run gateway_locations current_height address w witness_edges ds :
  get_witness_edges_for_address address = Ok (Some witness_edges) →
  (2 ≤ length witness_edges)%nat →
  rasterio_open = Ok ds →
  process_node gateway_locations current_height address w
  = let w1 := with_topo_log (node_extracted witness_edges) w in
    let path_features :=
      (λ x, features_of (map_topo_features x ds) x)
        <$> node_usable ds witness_edges in
    let path_details := details_of <$> node_usable ds witness_edges in
    if (length path_details <? 1)%nat || (length path_features <? 1)%nat
    then (Ok tt, w1)
    else
      match with_outliers path_details (iso_forest_predict path_features) with
      | Raise e => (Raise e, w1)
      | Ok details_df =>
          match generate_stats details_df gateway_locations
                  (svm_predict (drop_distance <$> path_features))
                  current_height w1 with
          | (Ok result_rows, w2) => upsert_predictions result_rows w2
          | (Raise KeyError, w2) | (Raise AttributeError, w2) => (Ok tt, w2)
          | (Raise e, w2) => (Raise e, w2)
          end
      end.
Proof.
  intros Hfetch Hlen Hopen. unfold process_node. rewrite Hfetch.
  destruct (Nat.ltb_spec (length witness_edges) 2) as [?|_]; [lia|].
  rewrite Hopen. unfold bind at 1, lift at 1.
  unfold bind at 1. rewrite edges_loop_outcome. cbn [app].
  fold (node_extracted witness_edges). fold (node_usable ds witness_edges).
  cbn zeta.
  destruct (_ || _); [done|].
  unfold bind at 1, lift at 1.
  destruct (with_outliers _ _) as [details_df|e]; [|done].
  unfold bind at 1, try_except, bind at 1.
  destruct (generate_stats _ _ _ _ _) as [[d|e] w2]; [done|].
  by destruct e.
Qed.

End Node.

Section NodeFacts.
Context {F : Type} `{Num F} `{Ext F}.
Implicit Types (w : world F) (gateway_locations : list (gateway F)).

Lemma node_extracted_asymmetric (witness_edges : list (edge F)) :
  lt_asymmetric →
  node_extracted witness_edges = List.filter distance_mask witness_edges.
Proof.
  intros Hasym. unfold node_extracted.
  induction witness_edges as [|x witness_edges IH]; [done|].
  cbn [List.filter]. destruct (distance_mask x) eqn:Hmask; [|done].
  cbn [List.filter]. rewrite IH.
  unfold distance_mask, fgt in Hmask. apply andb_prop in Hmask as [Hlow Hhigh].
  unfold out_of_band, fgt.
  by rewrite (Hasym _ _ Hlow), (Hasym _ _ Hhigh).
Qed.

(** X10. For a node whose edges were fetched (two at least) and whose
    raster was opened, the edges handed to [map_topo_features] are those
    that pass the mask and the guard of the loop, whatever happens to the
    node afterwards; when [<] is asymmetric, as it is on floats, the
    guard lets every edge of the mask through, so that they are exactly
    the edges with [50 < distance_m < 50000]. *)
Theorem process_node_extracts
    gateway_locations current_height address w witness_edges ds :
  get_witness_edges_for_address address = Ok (Some witness_edges) →
  (2 ≤ length witness_edges)%nat →
  rasterio_open = Ok ds →
  topo_log (process_node gateway_locations current_height address w).2
  = topo_log w ++ node_extracted witness_edges
  ∧ (lt_asymmetric →
     node_extracted witness_edges = List.filter distance_mask witness_edges).
Proof.
  intros Hfetch Hlen Hopen. split; [|apply node_extracted_asymmetric].
  rewrite (process_node_run _ _ _ _ _ _ Hfetch Hlen Hopen). cbn zeta.
  set (w1 := with_topo_log (node_extracted witness_edges) w).
  change (topo_log w ++ node_extracted witness_edges) with (topo_log w1).
  destruct (_ || _); [done|].
  destruct (with_outliers _ _) as [details_df|e]; [|done].
  pose proof (generate_stats_keeps (@topo_log F) details_df gateway_locations
                (svm_predict (drop_distance <$>
                   ((λ x, features_of (map_topo_features x ds) x)
                      <$> node_usable ds witness_edges)))
                current_height ltac:(done) ltac:(done) w1) as Hgen.
  destruct (generate_stats _ _ _ _ _) as [[d|e] w2]; cbn [snd] in Hgen.
  - rewrite <- Hgen. by apply upsert_predictions_keeps.
  - by destruct e.
Qed.

Lemma for_each_app {A} (xs ys : list A) (body : A → M F unit) w :
  for_each (xs ++ ys) body w
  = match for_each xs body w with
    | (Ok _, w1) => for_each ys body w1
    | (Raise e, w1) => (Raise e, w1)
    end.
Proof.
  revert w. induction xs as [|x xs IH]; intros w; [done|].
  simpl. unfold bind. destruct (body x w) as [[[]|e] w1]; [apply IH | done].
Qed.

(** X11. An exception that the body of the sweep does not catch ends
    the sweep: the nodes after the one that raised are not visited, and
    the sweep raises what the node raised. *)
Theorem sweep_stops_at_raise table current_height w before address after w1 e w2 :
  gw_address <$> gateway_locations table = before ++ address :: after →
  for_each before (process_node (gateway_locations table) current_height) w
  = (Ok tt, w1) →
  process_node (gateway_locations table) current_height address w1 = (Raise e, w2) →
  sweep table current_height w = (Raise e, w2).
Proof.
  intros Haddrs Hbefore Hnode. unfold sweep.
  change (map gw_address (gateway_locations table))
    with (gw_address <$> gateway_locations table).
  rewrite Haddrs, for_each_app, Hbefore. simpl. unfold bind. by rewrite Hnode.
Qed.

(** A raster that cannot be opened is such an exception. *)
Lemma process_node_raster_error gateway_locations current_height address w
    witness_edges e :
  get_witness_edges_for_address address = Ok (Some witness_edges) →
  (2 ≤ length witness_edges)%nat →
  rasterio_open = Raise e →
  process_node gateway_locations current_height address w = (Raise e, w).
Proof.
  intros Hfetch Hlen Hopen. unfold process_node. rewrite Hfetch.
  destruct (Nat.ltb_spec (length witness_edges) 2) as [?|_]; [lia|].
  by rewrite Hopen.
Qed.

End NodeFacts.

Section TableGrows.
Context {F : Type} `{Num F} `{Ext F}.
Implicit Types (w : world F) (gateway_locations : list (gateway F)).

Lemma table_grown_refl current_height w w' :
  committed w' = committed w → table_grown current_height w w'.
Proof.
  intros Heq. unfold table_grown. rewrite Heq.
  split; [done|]. intros a r Hr. by left.
Qed.

Lemma table_grown_trans current_height w1 w2 w3 :
  table_grown current_height w1 w2 → table_grown current_height w2 w3 →
  table_grown current_height w1 w3.
Proof.
  intros [Hsub12 Hnew12] [Hsub23 Hnew23]. split; [by etrans|].
  intros a r Hr. destruct (Hnew23 a r Hr) as [Hold|Hnew]; [|by right].
  by apply Hnew12.
Qed.

(** An upsert of what [generate_stats] returned, with no transaction
    open. *)
Lemma upsert_results_grows current_height (results : list (stats_entry F)) d w :
  heap w !! d = Some (rows_of_results current_height results) →
  pending w = ∅ →
  table_grown current_height w (upsert_predictions d w).2
  ∧ ((upsert_predictions d w).1 = Ok tt → pending (upsert_predictions d w).2 = ∅).
Proof.
  intros Hd Hpend.
  rewrite (upsert_predictions_run d _ w Hd (rows_of_results_keyed _ _)).
  unfold upsert_outcome.
  assert (visible w = committed w) as Hvis
    by (unfold visible; by rewrite Hpend, (left_id_L ∅ (∪))).
  rewrite Hvis, Hpend, (right_id_L ∅ (∪)).
  set (m' := rows_of_results current_height results ∖ committed w).
  assert (table_grown current_height w
            {| heap := <[d:=m']> (heap w); committed := m' ∪ committed w;
               pending := ∅; commit_faults := tail (commit_faults w);
               db_log := db_log w ++ [CallQueryAddressIn
                                        (map_to_list
                                           (rows_of_results current_height results)).*1;
                                      CallBulkInsert (map_to_list m').*2;
                                      CallFlush; CallCommit];
               stdout := stdout w; rng_calls := rng_calls w;
               topo_log := topo_log w |}) as Hgrown.
  { split; cbn [committed].
    - apply map_subseteq_spec. intros a r Hr.
      rewrite lookup_union_r; [done|].
      subst m'. by rewrite lookup_difference, Hr.
    - intros a r Hr. apply lookup_union_Some_raw in Hr as [Hr|[_ Hr]]; [|by left].
      right. subst m'. rewrite lookup_difference in Hr.
      destruct (committed w !! a); [done|].
      by apply lookup_rows_of_results in Hr as (e & _ & <- & ->). }
  destruct (next_commit w) as [e|]; [|done].
  destruct e; cbn [fst snd]; (split; [by apply table_grown_refl | done]).
Qed.

(** The body of the sweep, with no transaction open. *)
Lemma process_node_grows gateway_locations current_height address w :
  pending w = ∅ →
  table_grown current_height w
    (process_node gateway_locations current_height address w).2
  ∧ ((process_node gateway_locations current_height address w).1 = Ok tt →
     pending (process_node gateway_locations current_height address w).2 = ∅).
Proof.
  intros Hpend.
  destruct (get_witness_edges_for_address address)
    as [[witness_edges|]|e] eqn:Hfetch.
  2: { unfold process_node. rewrite Hfetch.
       split; [by apply table_grown_refl | done]. }
  2: { unfold process_node. rewrite Hfetch.
       destruct e; (split; [by apply table_grown_refl | done]). }
  destruct (Nat.ltb_spec (length witness_edges) 2) as [Hlt|Hge].
  { unfold process_node. rewrite Hfetch.
    destruct (Nat.ltb_spec (length witness_edges) 2) as [_|?]; [|lia].
    split; [by apply table_grown_refl | done]. }
  destruct rasterio_open as [ds|e] eqn:Hopen.
  2: { unfold process_node. rewrite Hfetch.
       destruct (Nat.ltb_spec (length witness_edges) 2) as [?|_]; [lia|].
       rewrite Hopen. split; [by apply table_grown_refl | done]. }
  rewrite (process_node_run _ _ _ _ _ _ Hfetch Hge Hopen). cbn zeta.
  set (w1 := with_topo_log (node_extracted witness_edges) w).
  destruct (_ || _); [split; [by apply table_grown_refl | done]|].
  destruct (with_outliers _ _) as [details_df|e];
    [|split; [by apply table_grown_refl | done]].
  set (eval_mean := svm_predict _).
  pose proof (generate_stats_keeps (@session_of F) details_df gateway_locations
                eval_mean current_height ltac:(done) ltac:(done) w1) as Hses.
  destruct (generate_stats _ _ _ _ _) as [[d|e] w2] eqn:Hgen; cbn [snd] in Hses.
  - injection Hses as Hcom Hpend2 _ _ _.
    apply generate_stats_Ok in Hgen as (results & Hheap & _ & _).
    destruct (upsert_results_grows current_height results d w2 Hheap)
      as [Hgrown Hok]; [by rewrite Hpend2|].
    split; [|done].
    unfold table_grown in *. rewrite Hcom in Hgrown. exact Hgrown.
  - injection Hses as Hcom Hpend2 _ _ _.
    destruct e; cbn [fst snd];
      (split; [by apply table_grown_refl | intros _; by rewrite Hpend2]).
Qed.

Lemma for_each_node_grows gateway_locations current_height addresses :
  ∀ w, pending w = ∅ →
    table_grown current_height w
      (for_each addresses (process_node gateway_locations current_height) w).2.
Proof.
  induction addresses as [|address addresses IH]; intros w Hpend.
  - by apply table_grown_refl.
  - simpl. unfold bind.
    destruct (process_node_grows gateway_locations current_height address w Hpend)
      as [Hgrown Hok].
    destruct (process_node _ _ _ w) as [[[]|e] w1]; cbn [fst snd] in *; [|done].
    eapply table_grown_trans; [exact Hgrown|]. apply IH. by apply Hok.
Qed.

(** X12. A sweep that starts with no transaction open only adds to the
    table [topography_results], whether it ends or raises on the way: the
    rows the table had are there unchanged, and each row it has gained
    sits under its own address and carries the height of the sweep. *)
Theorem sweep_table_grows table current_height w :
  pending w = ∅ →
  table_grown current_height w (sweep table current_height w).2.
Proof. intros Hpend. unfold sweep. by apply for_each_node_grows. Qed.

End TableGrows.

Section MoreStats.
Context {F : Type} `{Num F} `{Ext F}.
Implicit Types (w : world F) (st : @mc_locals F) (details_df : list (detail F))
  (gateway_locations : list (gateway F)) (eval_mean : list F).

(** X13. A draw that passes the three guards adds one location and uses
    up the value of the range: the first intersection point when it is
    strictly closer to the asserted location than the second, and the
    second otherwise.  When [<] is asymmetric, the point left out is not
    strictly closer than the one chosen. *)
Theorem mc_accepted_draw
    witness_coords eval_mean asserted k st w idx1 idx2 c1 c2 r1 r2 :
  next_draw witness_coords w = Some (idx1, idx2, c1, c2) →
  fle (haversine c1 c2) (lit (5 # 100)%Q) = false →
  eval_mean !! idx1 = Some r1 →
  eval_mean !! idx2 = Some r2 →
  fgt r1 (lit 50%Q) = false →
  fgt r2 (lit 50%Q) = false →
  flt (radicand r1 r2 (haversine c1 c2)) (lit 0%Q) = false →
  let pts := candidates c1 r1 r2 (haversine c1 c2) in
  ∃ chosen other,
    (chosen, other)
    = (if flt (haversine asserted pts.1) (haversine asserted pts.2)
       then (pts.1, pts.2) else (pts.2, pts.1))
    ∧ mc_attempt witness_coords eval_mean asserted k st w
      = (Ok {| mc_i := Z.of_nat k;
               predicted_locations := predicted_locations st ++ [chosen] |},
         tick_rng w)
    ∧ (lt_asymmetric →
       flt (haversine asserted other) (haversine asserted chosen) = false).
Proof.
  intros Hdraw Hu Hr1 Hr2 Hg1 Hg2 Hrad pts.
  assert (mc_attempt witness_coords eval_mean asserted k st w
          = (Ok {| mc_i := Z.of_nat k;
                   predicted_locations :=
                     predicted_locations st
                     ++ [if flt (haversine asserted pts.1) (haversine asserted pts.2)
                         then pts.1 else pts.2] |},
             tick_rng w)) as Hrun.
  { rewrite (mc_attempt_draw _ _ _ _ _ _ _ _ _ _ Hdraw), Hu.
    unfold bind, list_index. rewrite Hr1, Hr2. unfold ret.
    by rewrite Hg1, Hg2, Hrad. }
  rewrite Hrun.
  destruct (flt (haversine asserted pts.1) (haversine asserted pts.2)) eqn:Hlt.
  - exists pts.1, pts.2. split; [done|]. split; [done|].
    intros Hasym. by apply Hasym.
  - exists pts.2, pts.1. by repeat split.
Qed.

Lemma hotspot_stats_missing details_df gateway_locations eval_mean i hotspot w :
  qualifies details_df hotspot →
  filter (λ g, gw_address g = hotspot) gateway_locations = [] →
  hotspot_stats details_df gateway_locations eval_mean i hotspot w
  = (Raise KeyError, w).
Proof.
  unfold qualifies, hotspot_stats. intros Hq Hg.
  rewrite length_witness_coords.
  destruct (Nat.ltb_spec (length (rows_of details_df hotspot)) 3); [lia|].
  unfold bind, gateway_loc. by rewrite Hg.
Qed.

Lemma stats_loop_missing details_df gateway_locations eval_mean hotspots :
  permutations_ok →
  (length details_df ≤ length eval_mean)%nat →
  (∀ hotspot, hotspot ∈ hotspots → qualifies details_df hotspot →
     (length (filter (λ g, gw_address g = hotspot) gateway_locations) ≤ 1)%nat) →
  (∃ hotspot, hotspot ∈ hotspots ∧ qualifies details_df hotspot
     ∧ filter (λ g, gw_address g = hotspot) gateway_locations = []) →
  ∀ i0 results0 w, ∃ w',
    stats_loop details_df gateway_locations eval_mean i0 hotspots results0 w
    = (Raise KeyError, w').
Proof.
  intros Hperm Hem. induction hotspots as [|hotspot hotspots IH];
    intros Hone (missing & Hin & Hq & Hnone) i0 results0 w.
  - by apply elem_of_nil in Hin.
  - cbn [stats_loop]. unfold bind at 1.
    assert (∀ h, h ∈ hotspots → qualifies details_df h →
              (length (filter (λ g, gw_address g = h) gateway_locations) ≤ 1)%nat)
      as Hone' by (intros h Hh; apply Hone; by right).
    destruct (decide (qualifies details_df hotspot)) as [Hqh|Hqh].
    + destruct (filter (λ g, gw_address g = hotspot) gateway_locations)
        as [|g [|g' gs]] eqn:Hg.
      * rewrite hotspot_stats_missing by done. by eexists.
      * destruct (hotspot_stats_returns details_df gateway_locations eval_mean
                    i0 hotspot w g Hperm Hem Hqh Hg) as (e & w1 & ->).
        apply IH; [done|]. exists missing. split; [|done].
        apply elem_of_cons in Hin as [->|Hin]; [congruence | done].
      * specialize (Hone hotspot ltac:(by left) Hqh). rewrite Hg in Hone.
        simpl in Hone. lia.
    + rewrite hotspot_stats_few by done.
      apply IH; [done|]. exists missing. split; [|done].
      apply elem_of_cons in Hin as [->|Hin]; [done | done].
Qed.

(** X14. When a witness with three rows or more labels no row of
    [gateway_locations] (and no witness labels two), [generate_stats]
    raises [KeyError], whatever rows the other witnesses would have had:
    no mapping is returned for the node. *)
Theorem generate_stats_missing_gateway
    details_df gateway_locations eval_mean current_height w :
  permutations_ok →
  (length details_df ≤ length eval_mean)%nat →
  (∀ hotspot, qualifies details_df hotspot →
     (length (filter (λ g, gw_address g = hotspot) gateway_locations) ≤ 1)%nat) →
  (∃ hotspot, hotspot ∈ d_witness_address <$> details_df
     ∧ qualifies details_df hotspot
     ∧ filter (λ g, gw_address g = hotspot) gateway_locations = []) →
  ∃ w', generate_stats details_df gateway_locations eval_mean current_height w
        = (Raise KeyError, w')
        ∧ heap w' = heap w.
Proof.
  intros Hperm Hem Hone (missing & Hin & Hq & Hnone).
  destruct (stats_loop_missing details_df gateway_locations eval_mean
              (remove_dups (d_witness_address <$> details_df)) Hperm Hem)
    with (i0 := 0%nat) (results0 := @nil (stats_entry F)) (w := w)
    as [w' Hloop].
  { intros h _. apply Hone. }
  { exists missing. split; [by apply elem_of_remove_dups | done]. }
  exists w'. unfold generate_stats, bind. rewrite Hloop. split; [done|].
  pose proof (stats_loop_keeps (@heap F) details_df gateway_locations eval_mean
                (remove_dups (d_witness_address <$> details_df))
                ltac:(done) 0%nat [] w) as Hheap.
  by rewrite Hloop in Hheap.
Qed.

End MoreStats.

Section MoreUpsert.
Context {F : Type}.
Implicit Types (w : world F) (m : gmap string (result_row F)) (d : positive).

(** X15. [upsert_predictions] handles the database-operational error
    only: when the commit raises another exception, the call raises it;
    nothing is printed, no rollback is made, the rows inserted stay in the
    open transaction and the table is as it was. *)
Theorem upsert_predictions_other_error d m w e :
  heap w !! d = Some m →
  keyed_by_address m →
  next_commit w = Some e →
  e ≠ OperationalError →
  ∃ w',
    upsert_predictions d w = (Raise e, w')
    ∧ committed w' = committed w
    ∧ pending w' = (m ∖ visible w) ∪ pending w
    ∧ stdout w' = stdout w
    ∧ db_log w' = db_log w ++ [CallQueryAddressIn (map_to_list m).*1;
                               CallBulkInsert (map_to_list (m ∖ visible w)).*2;
                               CallFlush; CallCommit].
Proof.
  intros Hd Hk Hc He.
  rewrite (upsert_predictions_run d m w Hd Hk). unfold upsert_outcome.
  rewrite Hc. destruct e; try done; by eexists.
Qed.

End MoreUpsert.

Section InventoryFacts.
Context {F : Type} `{Ext F}.

Lemma newer_first_transitive : Transitive newer_first.
Proof. intros a b c. unfold newer_first. lia. Qed.

Lemma newer_first_total : Total newer_first.
Proof. intros a b. unfold newer_first. lia. Qed.

Lemma gateway_of_row_complete (r : inventory_row) :
  complete r ↔ is_Some (gateway_of_row (F := F) r).
Proof.
  unfold complete, gateway_of_row.
  destruct (inv_location r), (inv_gain r), (inv_elevation r); split;
    try (intros (? & ? & ?)); try (intros [? [=]]); try done;
    repeat match goal with Hn : is_Some None |- _ => by destruct Hn end.
Qed.

Lemma gateway_of_row_address (r : inventory_row) (g : gateway F) :
  gateway_of_row r = Some g →
  gw_address g = inv_address r
  ∧ inv_location r = Some (gw_location g)
  ∧ asserted_location g = h3_to_geo (gw_location g)
  ∧ asserted_hex_res8 g = h3_to_parent (gw_location g) 8.
Proof.
  unfold gateway_of_row.
  destruct (inv_location r), (inv_gain r), (inv_elevation r); try done.
  by intros [= <-].
Qed.

(** X16. The frame [gateway_locations] is the table, most recent block
    first, without the rows that have a null in [location], [gain] or
    [elevation]: it is the image of a rearrangement of the table that is
    sorted by descending [last_block], and a gateway is in it exactly when
    a complete row of the table gives it. *)
Theorem gateway_locations_order (table : list inventory_row) :
  (∃ rows,
     rows ≡ₚ table
     ∧ StronglySorted newer_first rows
     ∧ gateway_locations (F := F) table = omap gateway_of_row rows)
  ∧ ∀ g : gateway F,
      g ∈ gateway_locations table
      ↔ ∃ r, r ∈ table ∧ complete r ∧ gateway_of_row r = Some g.
Proof.
  split.
  - exists (select_gateway_inventory table). split; [|split; [|done]].
    + apply merge_sort_Permutation.
    + apply (@StronglySorted_merge_sort _ newer_first _
               newer_first_transitive newer_first_total).
  - intros g. unfold gateway_locations. rewrite list_elem_of_omap. split.
    + intros (r & Hr & Hg). exists r.
      split; [|split; [|done]].
      * unfold select_gateway_inventory in Hr.
        by rewrite merge_sort_Permutation in Hr.
      * apply gateway_of_row_complete. by rewrite Hg.
    + intros (r & Hr & _ & Hg). exists r. split; [|done].
      unfold select_gateway_inventory. by rewrite merge_sort_Permutation.
Qed.

Lemma omap_filter_address (rows : list inventory_row) a :
  length (filter (λ g : gateway F, gw_address g = a) (omap gateway_of_row rows))
  = length (filter (λ r, inv_address r = a ∧ complete r) rows).
Proof.
  induction rows as [|r rows IH]; [done|].
  cbn [omap list_omap].
  destruct (gateway_of_row r) as [g|] eqn:Hg.
  - apply gateway_of_row_address in Hg as Haddr. destruct Haddr as [Haddr _].
    assert (complete r) as Hc by (apply gateway_of_row_complete; by rewrite Hg).
    destruct (decide (inv_address r = a)) as [Ha|Ha].
    + rewrite !filter_cons_True by (try done; congruence). simpl. by rewrite IH.
    + rewrite !filter_cons_False by (try tauto; congruence). done.
  - rewrite filter_cons_False; [done|].
    intros [_ Hc]. apply gateway_of_row_complete in Hc. rewrite Hg in Hc.
    by destruct Hc.
Qed.

(** X17. [gateway_locations] does not deduplicate: an address labels as
    many rows of the frame as the table has complete rows for it.  So an
    address with one complete row is found by [.loc], an address with
    none raises [KeyError], and the frame has one row per address when
    the table has. *)
Theorem gateway_locations_no_dedup (table : list inventory_row) a :
  length (filter (λ g : gateway F, gw_address g = a) (gateway_locations table))
  = length (filter (λ r, inv_address r = a ∧ complete r) table)
  ∧ (length (filter (λ r, inv_address r = a ∧ complete r) table) = 0%nat →
     ∀ w, gateway_loc (gateway_locations (F := F) table) a w = (Raise KeyError, w))
  ∧ (length (filter (λ r, inv_address r = a ∧ complete r) table) = 1%nat →
     ∃ g, gw_address g = a
          ∧ ∀ w, gateway_loc (gateway_locations (F := F) table) a w = (Ok g, w))
  ∧ (NoDup (inv_address <$> table) →
     NoDup (gw_address <$> gateway_locations (F := F) table)).
Proof.
  assert (length (filter (λ g : gateway F, gw_address g = a)
                    (gateway_locations table))
          = length (filter (λ r, inv_address r = a ∧ complete r) table)) as Hcount.
  { unfold gateway_locations. rewrite omap_filter_address.
    apply Permutation_length. unfold select_gateway_inventory.
    by rewrite merge_sort_Permutation. }
  split; [exact Hcount|]. rewrite <- Hcount. split; [|split].
  - intros Hnone w. unfold gateway_loc.
    destruct (filter _ _) as [|? ?]; [done | simpl in Hnone; lia].
  - intros Hone. unfold gateway_loc.
    destruct (filter _ _) as [|g [|? ?]] eqn:Hg; simpl in Hone; try lia.
    exists g. split; [|done].
    assert (g ∈ filter (λ g : gateway F, gw_address g = a)
                  (gateway_locations table)) as Hin
      by (rewrite Hg; apply list_elem_of_here).
    by apply list_elem_of_filter in Hin as [Hin _].
  - intros Hnd. unfold gateway_locations.
    assert (Hsorted : NoDup (inv_address <$> select_gateway_inventory table)).
    { unfold select_gateway_inventory. by rewrite merge_sort_Permutation. }
    revert Hsorted. generalize (select_gateway_inventory table).
    induction l as [|r rows IH]; [intros; constructor|].
    rewrite fmap_cons. intros [Hnotin Hrest]%NoDup_cons.
    cbn [omap list_omap].
    destruct (gateway_of_row r) as [g|] eqn:Hgr; [|by apply IH].
    rewrite fmap_cons. apply NoDup_cons. split; [|by apply IH].
    intros Hin. apply Hnotin.
    apply list_elem_of_fmap in Hin as (g' & Hg' & Hin).
    apply list_elem_of_omap in Hin as (r' & Hr' & Hgr').
    apply gateway_of_row_address in Hgr as [<- _].
    apply gateway_of_row_address in Hgr' as [Ha' _].
    rewrite Hg', Ha'. by apply list_elem_of_fmap_2.
Qed.

End InventoryFacts.

Section PercentFacts.

Lemma round_half_even_exact q b : 0 < b → round_half_even (q * b) b = q.
Proof.
  intros Hb. unfold round_half_even.
  rewrite Z.div_mul, Z.mod_mul by lia.
  destruct (Z.ltb_spec (2 * 0) b); [done | lia].
Qed.

(** X18. The percentage of a witness with locations but none in the
    rings reads ["0.0"], and reads ["100.0"] when all are in the rings;
    with no location at all the division raises (and the text is the
    ["0"] of the handler). *)
Theorem percent_str_extremes (n_points : nat) :
  (0 < n_points)%nat →
  percent_str 0 n_points = Ok "0.0"
  ∧ percent_str n_points n_points = Ok "100.0"
  ∧ percent_str 0 0 = Raise ZeroDivisionError.
Proof.
  intros Hn. unfold percent_str.
  destruct (Nat.eqb_spec n_points 0) as [?|_]; [lia|].
  split; [|split; [|done]].
  - change (1000 * Z.of_nat 0) with (0 * Z.of_nat n_points).
    by rewrite round_half_even_exact by lia.
  - by rewrite round_half_even_exact by lia.
Qed.

(** X19. The percentage that is printed is the exact one rounded to the
    nearest tenth: for [pts_in_hex] locations out of [n_points], the
    number of tenths [t] that the text shows is within a half of
    [1000 * pts_in_hex / n_points], and even on a tie. *)
Theorem percent_str_nearest (pts_in_hex n_points : nat) :
  (0 < n_points)%nat →
  ∃ t,
    percent_str pts_in_hex n_points = Ok (str_tenths t)
    ∧ 2 * Z.abs (t * Z.of_nat n_points - 1000 * Z.of_nat pts_in_hex)
      ≤ Z.of_nat n_points
    ∧ (2 * Z.abs (t * Z.of_nat n_points - 1000 * Z.of_nat pts_in_hex)
       = Z.of_nat n_points → Z.even t = true).
Proof.
  intros Hn. unfold percent_str.
  destruct (Nat.eqb_spec n_points 0) as [?|_]; [lia|].
  eexists. split; [reflexivity|].
  set (a := 1000 * Z.of_nat pts_in_hex). set (b := Z.of_nat n_points).
  assert (0 < b) as Hb by lia.
  unfold round_half_even.
  pose proof (Z.div_mod a b ltac:(lia)) as Hdm.
  pose proof (Z.mod_pos_bound a b Hb) as Hr.
  destruct (Z.ltb_spec (2 * (a mod b)) b) as [Hlt|Hge].
  { split; [nia|]. intros Htie. nia. }
  destruct (Z.ltb_spec b (2 * (a mod b))) as [Hgt|Hle].
  { split; [nia|]. intros Htie. nia. }
  destruct (Z.even (a / b)) eqn:Heven.
  - split; [nia | done].
  - split; [nia|]. intros _.
    rewrite Z.even_add, Heven. done.
Qed.

End PercentFacts.

Section Pipeline.
Context {F : Type} `{Num F} `{Ext F}.
Implicit Types (w : world F) (gateway_locations : list (gateway F)).

Lemma with_outliers_Ok (path_details : list (@path_detail F)) (outliers : list Z) :
  length outliers = length path_details →
  ∃ details_df,
    with_outliers path_details outliers = Ok details_df
    ∧ d_witness_address <$> details_df = pd_witness_address <$> path_details.
Proof.
  intros Hlen. unfold with_outliers.
  destruct (Nat.eqb_spec (length path_details) (length outliers)) as [_|?]; [|lia].
  eexists. split; [done|].
  revert outliers Hlen. induction path_details as [|pd pds IH];
    intros [|o os] Hlen; simpl in *; try done.
  f_equal. apply IH. lia.
Qed.

Lemma rows_of_all (details_df : list (detail F)) hotspot :
  Forall (λ a, a = hotspot) (d_witness_address <$> details_df) →
  rows_of details_df hotspot = details_df.
Proof.
  unfold rows_of. induction details_df as [|d ds IH]; [done|].
  rewrite fmap_cons. intros [Hd Hds]%Forall_cons.
  rewrite filter_cons_True by done. f_equal. by apply IH.
Qed.

Lemma rows_of_length_le (details_df : list (detail F)) hotspot :
  (length (rows_of details_df hotspot) ≤ length details_df)%nat.
Proof. apply length_filter. Qed.



End Pipeline.

Section SampleFacts.

Lemma qf_lt_asymmetric : lt_asymmetric (F := QF).
Proof.
  intros [x|] [y|]; cbn; try done.
  intros Hxy. apply negb_true_iff in Hxy. apply negb_false_iff.
  apply Qle_bool_iff. destruct (Qlt_le_dec x y) as [Hlt|Hle].
  - by apply Qlt_le_weak.
  - apply Qle_bool_iff in Hle. congruence.
Qed.

Lemma flat_models_ok (receipts : list (edge QF)) :
  models_ok (H0 := flat_world receipts).
Proof. split; intros X; cbn; apply length_fmap. Qed.

Lemma flat_permutations_ok (receipts : list (edge QF)) :
  permutations_ok (H0 := flat_world receipts).
Proof.
  intros c n. cbn. unfold rotate.
  rewrite Permutation_app_comm. by rewrite take_drop.
Qed.

End SampleFacts.

Section TopoRuns.
Local Existing Instance sample_world.

(** X1, on a run: the second point of the path of [polar_edge] is
    north of the raster. *)
Lemma map_topo_features_sample_error_witness :
  map_topo_features polar_edge tt = nan_features.
Proof.
  apply (map_topo_features_sample_error (H0 := sample_world) polar_edge tt
           [Some 0%Q; Some (3 # 10)%Q; Some (3 # 5)%Q; Some (9 # 10)%Q]
           (Some 0%Q, Some (2960063 # 37000)%Q) RasterioError).
  - reflexivity.
  - right. left.
  - reflexivity.
Defined.

(** X2, on a run: the four points of the path of [equator_edge]. *)
Lemma map_topo_features_profile_witness :
  ra (map_topo_features equator_edge tt) = Some 1%Q.
Proof.
  rewrite (map_topo_features_profile (H0 := sample_world) equator_edge tt
             [Some 0%Q; Some (3 # 10)%Q; Some (3 # 5)%Q; Some (9 # 10)%Q]
             (replicate 4 (Some 100%Q)) (replicate 4 (Some 100%Q))
             {| ra := Some 1%Q; rq := Some 1%Q; rp := Some 2%Q; rv := Some 2%Q;
                rz := Some 4%Q; rsk := Some 0%Q; rku := Some 3%Q;
                deepest_barrier := Some 0%Q; n_barriers := Some 0%Q |}).
  - reflexivity.
  - reflexivity.
  - repeat constructor.
  - reflexivity.
  - reflexivity.
Defined.

End TopoRuns.

Section StatsRuns.
Local Existing Instance sample_world.

(** X5, on a run: a witness with two rows. *)
Lemma generate_stats_no_witness_witness :
  generate_stats few_details sample_gateways sample_radii 7 (world0 [])
  = (Raise KeyError, world0 []).
Proof.
  apply generate_stats_no_witness. intros hotspot Hq.
  unfold qualifies in Hq.
  pose proof (rows_of_le few_details hotspot) as Hle. simpl in Hle. lia.
Defined.

(** X6, on a run. *)
Lemma generate_stats_rows_witness :
  ∃ d w' rows,
    generate_stats sample_details sample_gateways sample_radii 7 (world0 [])
    = (Ok d, w')
    ∧ heap w' !! d = Some rows
    ∧ keyed_by_address rows.
Proof.
  destruct (generate_stats_has_row sample_details sample_gateways sample_radii 7
              (world0 []) "a" sample_permutations_ok)
    as (d & w' & rows & row & Hgen & Hheap & _);
    [vm_compute; lia | exact sample_located | | vm_compute; lia |].
  { apply (list_elem_of_fmap_2 d_witness_address sample_details
             (mk_detail "t1" "a" origin 1)).
    apply list_elem_of_here. }
  exists d, w', rows. split; [exact Hgen|]. split; [exact Hheap|].
  exact (proj1 (generate_stats_rows sample_details sample_gateways sample_radii 7
                  (world0 []) d w' rows Hgen Hheap)).
Defined.

(** X7, on a run of five passes. *)
Lemma mc_run_draws_witness :
  ∃ st' w',
    mc_run near_coords unit_radii origin (seq 0 5) no_locations (world0 [])
    = (Ok st', w')
    ∧ rng_calls w' = 5%nat
    ∧ (length (predicted_locations st') ≤ 5)%nat.
Proof.
  destruct (mc_run_returns near_coords unit_radii origin (seq 0 5)
              sample_permutations_ok)
    with (st := no_locations) (w := world0 (F := QF) [])
    as (st' & w' & Hrun); [simpl; lia | simpl; lia |].
  destruct (mc_run_draws near_coords unit_radii origin (seq 0 5) no_locations
              (world0 []) st' w' Hrun) as (Hrng & _ & Hlen).
  exists st', w'. split; [exact Hrun|]. split; [exact Hrng | exact Hlen].
Defined.

(** X8, on a run. *)
Lemma generate_stats_draws_witness :
  ∃ d w',
    generate_stats sample_details sample_gateways sample_radii 7 (world0 [])
    = (Ok d, w')
    ∧ rng_calls w' = 1000%nat.
Proof.
  destruct (generate_stats_has_row sample_details sample_gateways sample_radii 7
              (world0 []) "a" sample_permutations_ok)
    as (d & w' & rows & row & Hgen & _);
    [vm_compute; lia | exact sample_located | | vm_compute; lia |].
  { apply (list_elem_of_fmap_2 d_witness_address sample_details
             (mk_detail "t1" "a" origin 1)).
    apply list_elem_of_here. }
  exists d, w'. split; [exact Hgen|].
  exact (proj1 (generate_stats_draws sample_details sample_gateways sample_radii 7
                  (world0 []) d w' Hgen)).
Defined.

(** X13, on a run: the second draw on [near_coords] picks the pair a
    kilometer apart. *)
Lemma mc_accepted_draw_witness :
  ∃ chosen,
    mc_attempt near_coords unit_radii origin 1 no_locations (tick_rng (world0 []))
    = (Ok {| mc_i := 1; predicted_locations := [chosen] |},
       tick_rng (tick_rng (world0 []))).
Proof.
  destruct (mc_accepted_draw near_coords unit_radii origin 1 no_locations
              (tick_rng (world0 [])) 1 2 origin (Some (1 # 100)%Q, Some 0%Q)
              (Some 1%Q) (Some 1%Q))
    as (chosen & other & _ & Hrun & _); try reflexivity.
  exists chosen. exact Hrun.
Defined.

(** X14, on a run: the inventory has no row for [a]. *)
Lemma generate_stats_missing_gateway_witness :
  ∃ w',
    generate_stats sample_details [mk_gateway "b"] sample_radii 7 (world0 [])
    = (Raise KeyError, w').
Proof.
  destruct (generate_stats_missing_gateway sample_details [mk_gateway "b"]
              sample_radii 7 (world0 []) sample_permutations_ok)
    as (w' & Hgen & _).
  - vm_compute; lia.
  - intros hotspot _.
    pose proof (length_filter (λ g : gateway QF, gw_address g = hotspot)
                  [mk_gateway "b"]) as Hle.
    exact Hle.
  - exists "a". split; [|split; [vm_compute; lia | reflexivity]].
    apply (list_elem_of_fmap_2 d_witness_address sample_details
             (mk_detail "t1" "a" origin 1)).
    apply list_elem_of_here.
  - by exists w'.
Defined.

(** X15, on a run: the commit raises an integrity error. *)
Lemma upsert_predictions_other_error_witness :
  ∃ w',
    upsert_predictions 1%positive (stored_world [Some IntegrityError])
    = (Raise IntegrityError, w')
    ∧ committed w' = committed (stored_world [Some IntegrityError]).
Proof.
  destruct (upsert_predictions_other_error 1%positive sample_rows
              (stored_world [Some IntegrityError]) IntegrityError)
    as (w' & Hrun & Hcom & _);
    [reflexivity | exact sample_rows_keyed | reflexivity | discriminate |].
  by exists w'.
Defined.

(** X18 and X19, on three locations. *)
Lemma percent_str_extremes_witness :
  percent_str 0 3 = Ok "0.0" ∧ percent_str 3 3 = Ok "100.0".
Proof.
  destruct (percent_str_extremes 3) as (Hzero & Hall & _); [lia|].
  split; [exact Hzero | exact Hall].
Defined.

Lemma percent_str_nearest_witness :
  ∃ t, percent_str 1 3 = Ok (str_tenths t) ∧ 2 * Z.abs (t * 3 - 1000) ≤ 3.
Proof.
  destruct (percent_str_nearest 1 3) as (t & Htext & Hnear & _); [lia|].
  exists t. split; [exact Htext | exact Hnear].
Defined.

End StatsRuns.

Section BandRuns.
Local Existing Instance band_world.

(** X10, on a run: of the edges of 10, 60, 25000 and 60000 meters, the
    two in the band are handed to [map_topo_features]. *)
Lemma process_node_extracts_witness :
  topo_log (process_node sample_gateways 7 "a" (world0 [])).2
  = [mk_edge "t2" "a" 0 60; mk_edge "t3" "a" 0 25000].
Proof.
  destruct (process_node_extracts (H0 := band_world) sample_gateways 7 "a" (world0 []) band_edges tt)
    as [Hlog Hmask]; [reflexivity | simpl; lia | reflexivity |].
  rewrite Hlog, (Hmask qf_lt_asymmetric). reflexivity.
Defined.


End BandRuns.

Section ClosedRuns.
Local Existing Instance closed_world.

(** X11, on a run: the raster cannot be opened for [a], and [b] is not
    visited. *)
Lemma sweep_stops_at_raise_witness :
  sweep sample_table 7 (world0 []) = (Raise RasterioError, world0 []).
Proof.
  apply (sweep_stops_at_raise sample_table 7 (world0 []) [] "a" ["b"] (world0 [])).
  - reflexivity.
  - reflexivity.
  - apply (process_node_raster_error (H0 := closed_world) _ _ _ _ band_edges);
      [reflexivity | simpl; lia | reflexivity].
Defined.

End ClosedRuns.

Section ThreeRuns.
Local Existing Instance three_world.

(** X12, on a run. *)
Lemma sweep_table_grows_witness :
  table_grown 7 (world0 []) (sweep sample_table 7 (world0 [])).2.
Proof. apply sweep_table_grows. reflexivity. Defined.


End ThreeRuns.
